(** * ipfs-kad-dht-evaluation: a shallow embedding of [index.js]

    The development follows the layout of the program: the JavaScript
    values the harness manipulates (strings, arrays, thrown errors), the
    collaborating packages it calls into ([crypto], [multihashes], [cids],
    [peer-id], [libp2p], [xor-distance]), the functions of [index.js]
    itself, and finally the properties of those functions. *)

From Stdlib Require Import ZArith NArith Ascii String List Lia Bool.
From Stdlib Require Import Init.Byte.
From stdpp Require Import base option list strings gmap fin_maps pretty.

Open Scope string_scope.
Open Scope list_scope.

(** ** JavaScript values and control effects *)

(** A thrown [Error] object; the harness only ever sees the two classes
    below ([TypeError] is what property access on [undefined] raises). *)
Inductive JsError : Type :=
| Error (message : string)
| TypeError (message : string).

(** The outcome of evaluating a JavaScript expression or an [async]
    function: a value, or a throw (a rejected promise). *)
Inductive Result (A : Type) : Type :=
| Ok (value : A)
| Throw (e : JsError).
Arguments Ok {A} value.
Arguments Throw {A} e.

#[global] Instance Result_ret : MRet Result := fun _ a => Ok a.
#[global] Instance Result_bind : MBind Result :=
  fun _ _ k m => match m with Ok a => k a | Throw e => Throw e end.

Definition is_Throw {A} (r : Result A) : Prop := ∃ e, r = Throw e.

Module JsString.

(** A string is held as its UTF-8 bytes.  Splitting on the slash is the
    same on bytes and on the UTF-16 code units of JavaScript: the byte
    [0x2F] occurs in UTF-8 text only as the slash itself. *)

(** [s.split(sep)] for a one-character separator: the segments between
    consecutive occurrences of [sep], empty segments included.  The
    result always has one more element than [s] has separators. *)
Fixpoint split (sep : ascii) (s : string) : list string :=
  match s with
  | EmptyString => [EmptyString]
  | String c rest =>
      if Ascii.eqb c sep then EmptyString :: split sep rest
      else match split sep rest with
           | seg :: segs => String c seg :: segs
           | [] => [String c EmptyString]
           end
  end.

(** Number of occurrences of a character. *)
Fixpoint occurrences (c : ascii) (s : string) : nat :=
  match s with
  | EmptyString => 0
  | String d rest => (if Ascii.eqb d c then 1 else 0) + occurrences c rest
  end.

End JsString.

Module JsArray.

(** [arr.findIndex(p)]: position of the first element satisfying [p],
    scanning from index [k]; the sentinel [-1] when there is none. *)
Fixpoint findIndex_from {A} (p : A → bool) (arr : list A) (k : Z) : Z :=
  match arr with
  | [] => (-1)%Z
  | element :: rest => if p element then k else findIndex_from p rest (k + 1)%Z
  end.

Definition findIndex {A} (p : A → bool) (arr : list A) : Z :=
  findIndex_from p arr 0%Z.

(** [arr.push(x)] *)
Definition push {A} (arr : list A) (x : A) : list A := arr ++ [x].

(** [arr[i]] where the result is dereferenced at once: [undefined]
    makes the property access throw. *)
Definition at_ {A} (arr : list A) (i : nat) : Result A :=
  match arr !! i with
  | Some x => Ok x
  | None => Throw (TypeError "Cannot read properties of undefined")
  end.

End JsArray.

(** ** [parseProviderKey] (index.js, lines 26-36) *)

Record ProviderEntry : Type := { cid : string; peerId : string }.

(** [parts[2]] and [parts[3]] are read past the length guard, hence in
    range; [!!!] is the total list lookup. *)
Definition parseProviderKey (key : string) : Result ProviderEntry :=
  let parts := JsString.split "/" key in
  if negb (length parts =? 4)%nat then
    Throw (Error ("incorrectly formatted provider entry key in datastore: " +:+ key))
  else
    Ok {| cid := parts !!! 2; peerId := parts !!! 3 |}.

(** The [MalformedKey] failure of the provider record inspector. *)
Definition MalformedKey (key : string) : JsError :=
  Error ("incorrectly formatted provider entry key in datastore: " +:+ key).

(** A provider record key as the datastore lays it out. *)
Definition providerKey (cidText peerText : string) : string :=
  "/providers/" +:+ cidText +:+ "/" +:+ peerText.

(** The invariant of a provider record key: exactly four slash-delimited
    segments. *)
Definition wellFormedKey (key : string) : Prop :=
  length (JsString.split "/" key) = 4.

(** ** Bytes *)

Module Bytes.

(** The byte holding the low eight bits of [n]. *)
Definition of_N (n : N) : byte :=
  match Byte.of_N (n mod 256) with
  | Some b => b
  | None => x00
  end.

(** Big-endian digits in a base: the number a digit string denotes. *)
Definition value (base : N) (digits : list N) : N :=
  fold_left (fun acc d => (acc * base + d)%N) digits 0%N.

Fixpoint digits_fuel (fuel : nat) (base n : N) (acc : list N) : list N :=
  match fuel with
  | O => acc
  | S fuel' =>
      if (n =? 0)%N then acc
      else digits_fuel fuel' base (n / base)%N ((n mod base)%N :: acc)
  end.

(** The digits of [n], most significant first, none for zero; the
    number of bits of [n] bounds the number of divisions. *)
Definition digits (base n : N) : list N :=
  digits_fuel (N.to_nat (N.size n)) base n [].

(** Well-formed digit strings: digits below the base, no leading zero. *)
Definition canonical (base : N) (ds : list N) : Prop :=
  Forall (fun d => (d < base)%N) ds ∧ head ds ≠ Some 0%N.

(** [k] bytes, most significant first, of [n] modulo [256^k]. *)
Fixpoint be_bytes (k : nat) (n : N) : list byte :=
  match k with
  | O => []
  | S k' => of_N (N.shiftr n (8 * N.of_nat k')) :: be_bytes k' n
  end.

(** The unsigned big-endian integer held by a byte string. *)
Definition be_value (bytes : list byte) : N := value 256 (map Byte.to_N bytes).

(** Consecutive pieces of [size] elements ([fuel] bounds their number). *)
Fixpoint chunks {A} (fuel size : nat) (l : list A) : list (list A) :=
  match fuel with
  | O => []
  | S fuel' =>
      match l with
      | [] => []
      | _ => take size l :: chunks fuel' size (drop size l)
      end
  end.

End Bytes.

(** ** SHA-256 (FIPS 180-4), the digest behind [crypto.createHash('sha256')] *)

Module SHA256.
Local Open Scope N_scope.

Definition add32 (x y : N) : N := (x + y) mod 2 ^ 32.
Definition rotr (n x : N) : N :=
  N.lor (N.shiftr x n) ((N.shiftl x (32 - n)) mod 2 ^ 32).
Definition shr (n x : N) : N := N.shiftr x n.
Definition not32 (x : N) : N := N.lxor x 0xffffffff.

Definition Ch (x y z : N) : N := N.lxor (N.land x y) (N.land (not32 x) z).
Definition Maj (x y z : N) : N :=
  N.lxor (N.lxor (N.land x y) (N.land x z)) (N.land y z).
Definition Sigma0 (x : N) : N := N.lxor (N.lxor (rotr 2 x) (rotr 13 x)) (rotr 22 x).
Definition Sigma1 (x : N) : N := N.lxor (N.lxor (rotr 6 x) (rotr 11 x)) (rotr 25 x).
Definition sigma0 (x : N) : N := N.lxor (N.lxor (rotr 7 x) (rotr 18 x)) (shr 3 x).
Definition sigma1 (x : N) : N := N.lxor (N.lxor (rotr 17 x) (rotr 19 x)) (shr 10 x).

(** The round constants, eight to a line as FIPS 180-4 prints them. *)
Definition K : list N :=
  concat
    [ [0x428a2f98; 0x71374491; 0xb5c0fbcf; 0xe9b5dba5; 0x3956c25b; 0x59f111f1; 0x923f82a4; 0xab1c5ed5];
      [0xd807aa98; 0x12835b01; 0x243185be; 0x550c7dc3; 0x72be5d74; 0x80deb1fe; 0x9bdc06a7; 0xc19bf174];
      [0xe49b69c1; 0xefbe4786; 0x0fc19dc6; 0x240ca1cc; 0x2de92c6f; 0x4a7484aa; 0x5cb0a9dc; 0x76f988da];
      [0x983e5152; 0xa831c66d; 0xb00327c8; 0xbf597fc7; 0xc6e00bf3; 0xd5a79147; 0x06ca6351; 0x14292967];
      [0x27b70a85; 0x2e1b2138; 0x4d2c6dfc; 0x53380d13; 0x650a7354; 0x766a0abb; 0x81c2c92e; 0x92722c85];
      [0xa2bfe8a1; 0xa81a664b; 0xc24b8b70; 0xc76c51a3; 0xd192e819; 0xd6990624; 0xf40e3585; 0x106aa070];
      [0x19a4c116; 0x1e376c08; 0x2748774c; 0x34b0bcb5; 0x391c0cb3; 0x4ed8aa4a; 0x5b9cca4f; 0x682e6ff3];
      [0x748f82ee; 0x78a5636f; 0x84c87814; 0x8cc70208; 0x90befffa; 0xa4506ceb; 0xbef9a3f7; 0xc67178f2] ].

(** The eight working variables, also the intermediate hash value. *)
Record registers : Type :=
  Registers { ra : N; rb : N; rc : N; rd : N; re : N; rf : N; rg : N; rh : N }.

Definition H0 : registers :=
  Registers 0x6a09e667 0xbb67ae85 0x3c6ef372 0xa54ff53a
            0x510e527f 0x9b05688c 0x1f83d9ab 0x5be0cd19.

(** Padding: a one bit, zero bits up to 448 modulo 512, and the bit
    length of the message on 64 bits. *)
Definition pad (msg : list byte) : list byte :=
  let len := length msg in
  let zeros := ((64 - (len + 9) mod 64) mod 64)%nat in
  msg ++ [x80] ++ repeat x00 zeros ++ Bytes.be_bytes 8 (8 * N.of_nat len).

(** The sixteen 32-bit words of a block. *)
Definition block_words (block : list byte) : list N :=
  map Bytes.be_value (Bytes.chunks 16 4 block).

(** The message schedule, extended by [n] words. *)
Fixpoint extend (n : nat) (W : list N) : list N :=
  match n with
  | O => W
  | S n' =>
      let t := length W in
      extend n'
        (W ++ [add32 (add32 (add32 (sigma1 (nth (t - 2) W 0)) (nth (t - 7) W 0))
                            (sigma0 (nth (t - 15) W 0)))
                     (nth (t - 16) W 0)])
  end.

Definition schedule (block : list byte) : list N := extend 48 (block_words block).

Definition round (r : registers) (kw : N * N) : registers :=
  let T1 := add32 (add32 (add32 (add32 (rh r) (Sigma1 (re r)))
                                (Ch (re r) (rf r) (rg r))) (fst kw)) (snd kw) in
  let T2 := add32 (Sigma0 (ra r)) (Maj (ra r) (rb r) (rc r)) in
  Registers (add32 T1 T2) (ra r) (rb r) (rc r) (add32 (rd r) T1) (re r) (rf r) (rg r).

Definition compress (H : registers) (block : list byte) : registers :=
  let r := fold_left round (combine K (schedule block)) H in
  Registers (add32 (ra H) (ra r)) (add32 (rb H) (rb r))
            (add32 (rc H) (rc r)) (add32 (rd H) (rd r))
            (add32 (re H) (re r)) (add32 (rf H) (rf r))
            (add32 (rg H) (rg r)) (add32 (rh H) (rh r)).

Definition output (H : registers) : list byte :=
  Bytes.be_bytes 4 (ra H) ++ Bytes.be_bytes 4 (rb H) ++
  Bytes.be_bytes 4 (rc H) ++ Bytes.be_bytes 4 (rd H) ++
  Bytes.be_bytes 4 (re H) ++ Bytes.be_bytes 4 (rf H) ++
  Bytes.be_bytes 4 (rg H) ++ Bytes.be_bytes 4 (rh H).

Definition sha256 (msg : list byte) : list byte :=
  let padded := pad msg in
  output (fold_left compress (Bytes.chunks (length padded) 64 padded) H0).

End SHA256.

(** ** Base58 (the Bitcoin alphabet) *)

Module Base58.

Definition alphabet : list ascii :=
  list_ascii_of_string "123456789ABCDEFGHJKLMNPQRSTUVWXYZabcdefghijkmnopqrstuvwxyz".

Definition digit_char (d : N) : ascii := nth (N.to_nat d) alphabet "1"%char.

Fixpoint index_from (c : ascii) (chars : list ascii) (k : N) : option N :=
  match chars with
  | [] => None
  | x :: rest => if Ascii.eqb x c then Some k else index_from c rest (k + 1)%N
  end.

Definition char_digit (c : ascii) : option N := index_from c alphabet 0%N.

(** Number of leading elements of [l] equal to [x]. *)
Fixpoint leading {A} (eqb : A → A → bool) (x : A) (l : list A) : nat :=
  match l with
  | [] => 0
  | y :: rest => if eqb y x then S (leading eqb x rest) else 0
  end.

(** Each leading zero byte is written as the digit [1]; the rest is the
    big-endian integer written in base 58. *)
Definition encode (bytes : list byte) : string :=
  let zeros := leading Byte.eqb x00 bytes in
  let n := Bytes.be_value (drop zeros bytes) in
  string_of_list_ascii
    (repeat "1"%char zeros ++ map digit_char (Bytes.digits 58 n)).

Fixpoint char_digits (chars : list ascii) : option (list N) :=
  match chars with
  | [] => Some []
  | c :: rest =>
      match char_digit c, char_digits rest with
      | Some d, Some ds => Some (d :: ds)
      | _, _ => None
      end
  end.

Definition decode (text : string) : Result (list byte) :=
  match char_digits (list_ascii_of_string text) with
  | None => Throw (Error "Non-base58 character")
  | Some ds =>
      let ones := leading N.eqb 0%N ds in
      let n := Bytes.value 58 (drop ones ds) in
      Ok (repeat x00 ones ++ map Bytes.of_N (Bytes.digits 256 n))
  end.

End Base58.

(** ** The runtime heap of [crypto] hash objects *)

Module Hash.
(** A [crypto.Hash] object: its algorithm, the data fed so far, and
    whether [digest()] has been called. *)
Record t : Type := { algorithm : string; data : list byte; finalized : bool }.
End Hash.

(** The objects allocated so far; a reference is a position. *)
Abbreviation Heap := (list Hash.t).

(** Code that may allocate and mutate heap objects, and may throw. *)
Definition Js (A : Type) : Type := Heap → Result A * Heap.

Definition Js_ret {A} (a : A) : Js A := fun heap => (Ok a, heap).

Definition Js_bind {A B} (m : Js A) (k : A → Js B) : Js B :=
  fun heap =>
    match m heap with
    | (Ok a, heap') => k a heap'
    | (Throw e, heap') => (Throw e, heap')
    end.

(** A computation without heap effect. *)
Definition Js_lift {A} (r : Result A) : Js A := fun heap => (r, heap).

Notation "'let*' x := m 'in' k" := (Js_bind m (fun x => k))
  (at level 10, x name, m at level 100, k at level 200).

Module crypto.

(** Modelled from the spec: [crypto.createHash(algorithm)] of the
    runtime gives a fresh hash object.  Of its algorithms only [sha256],
    the one [index.js] asks for, is modelled. *)
Definition createHash (algorithm : string) : Js nat :=
  fun heap =>
    if String.eqb algorithm "sha256" then
      (Ok (length heap),
       heap ++ [{| Hash.algorithm := algorithm; Hash.data := [];
                   Hash.finalized := false |}])
    else (Throw (Error "Digest method not supported"), heap).

(** [hash.update(content)] appends the UTF-8 bytes of [content] and
    returns the hash object. *)
Definition update (hash : nat) (content : string) : Js nat :=
  fun heap =>
    match heap !! hash with
    | None => (Throw (TypeError "Cannot read properties of undefined"), heap)
    | Some h =>
        if Hash.finalized h then (Throw (Error "Digest already called"), heap)
        else
          (Ok hash,
           <[hash := {| Hash.algorithm := Hash.algorithm h;
                        Hash.data := Hash.data h ++ list_byte_of_string content;
                        Hash.finalized := false |}]> heap)
    end.

(** [hash.digest()] finalizes the object and returns the digest of the
    data fed to it. *)
Definition digest (hash : nat) : Js (list byte) :=
  fun heap =>
    match heap !! hash with
    | None => (Throw (TypeError "Cannot read properties of undefined"), heap)
    | Some h =>
        if Hash.finalized h then (Throw (Error "Digest already called"), heap)
        else
          (Ok (SHA256.sha256 (Hash.data h)),
           <[hash := {| Hash.algorithm := Hash.algorithm h;
                        Hash.data := Hash.data h;
                        Hash.finalized := true |}]> heap)
    end.

End crypto.

(** ** [multihashes] *)

Module multihash.

(** Modelled from the spec: the hash function codes of the multihash
    table that concern SHA-1, SHA-2 and SHA-3 ([0x12] tags SHA-256); the
    table of the package [multihashes] is longer. *)
Definition names : list (string * N) :=
  [ ("identity", 0x00); ("sha1", 0x11); ("sha2-256", 0x12); ("sha2-512", 0x13);
    ("sha3-512", 0x14); ("sha3-384", 0x15); ("sha3-256", 0x16);
    ("sha3-224", 0x17) ]%N.

Fixpoint assoc (name : string) (table : list (string * N)) : option N :=
  match table with
  | [] => None
  | (n, code) :: rest => if String.eqb n name then Some code else assoc name rest
  end.

Definition coerceCode (name : string) : Result N :=
  match assoc name names with
  | Some code => Ok code
  | None => Throw (Error ("Unrecognized hash function named: " +:+ name))
  end.

Definition isValidCode (code : N) : bool :=
  ((0 <? code) && (code <? 0x10))%N
  || existsb (fun entry => (snd entry =? code)%N) names.

Fixpoint varint_fuel (fuel : nat) (n : N) : list byte :=
  match fuel with
  | O => []
  | S fuel' =>
      if (n <? 128)%N then [Bytes.of_N n]
      else Bytes.of_N (N.lor (N.land n 127) 128) :: varint_fuel fuel' (N.shiftr n 7)
  end.

(** Unsigned LEB128, seven bits a byte, least significant first. *)
Definition varint_encode (n : N) : list byte :=
  varint_fuel (S (N.to_nat (N.size n))) n.

Fixpoint varint_decode_from (bytes : list byte) (shift acc : N)
  : option (N * list byte) :=
  match bytes with
  | [] => None
  | b :: rest =>
      let v := Byte.to_N b in
      if (v <? 128)%N then Some ((acc + N.shiftl v shift)%N, rest)
      else varint_decode_from rest (shift + 7)%N
             (acc + N.shiftl (N.land v 127) shift)%N
  end.

Definition varint_decode (bytes : list byte) : option (N * list byte) :=
  varint_decode_from bytes 0%N 0%N.

(** [multihash.encode(digest, name)]: function code, digest length,
    digest. *)
Definition encode (digest : list byte) (name : string) : Result (list byte) :=
  hashfn ← coerceCode name;
  Ok (varint_encode hashfn ++ varint_encode (N.of_nat (length digest)) ++ digest).

Record decoded : Type := { code : N; length_ : N; digest : list byte }.

Definition decode (bytes : list byte) : Result decoded :=
  if (length bytes <? 2)%nat then
    Throw (Error "multihash too short. must be > 2 bytes.")
  else
    match varint_decode bytes with
    | None => Throw (Error "Could not decode varint")
    | Some (code, rest) =>
        if negb (isValidCode code) then
          Throw (Error "multihash unknown function code")
        else
          match varint_decode rest with
          | None => Throw (Error "Could not decode varint")
          | Some (len, digest) =>
              if negb (N.of_nat (length digest) =? len)%N then
                Throw (Error "multihash length inconsistent")
              else Ok {| code := code; length_ := len; digest := digest |}
          end
    end.

Definition validate (bytes : list byte) : Result unit :=
  _ ← decode bytes; Ok tt.

Definition toB58String (hash : list byte) : string := Base58.encode hash.

Definition fromB58String (text : string) : Result (list byte) := Base58.decode text.

End multihash.

(** ** [cids] *)

Module CID.

Record t : Type := {
  version : N;
  codec : string;
  multihash : list byte;
  multibaseName : string
}.

Definition validateCID (other : t) : Result unit :=
  if negb ((version other =? 0)%N || (version other =? 1)%N) then
    Throw (Error "Invalid version, must be a number equal to 1 or 0")
  else if (version other =? 0)%N && negb (String.eqb (codec other) "dag-pb") then
    Throw (Error "codec must be 'dag-pb' for CIDv0")
  else if (version other =? 0)%N
          && negb (String.eqb (multibaseName other) "base58btc") then
    Throw (Error "multibaseName must be 'base58btc' for CIDv0")
  else multihash.validate (multihash other).

(** Modelled from the spec: [new CID(text)] for the Base58 text of a
    multihash, which wraps the multihash in a CID of version 0 (the
    constructor of the package is not part of the sources).  The texts
    [create_CID] passes begin with [Qm] (lemma [create_CID_text_Qm]); the
    multibase-prefixed texts of version 1 are outside this model. *)
Definition new_ (text : string) : Result t :=
  mh ← multihash.fromB58String text;
  let cid :=
    {| version := 0; codec := "dag-pb"; multihash := mh;
       multibaseName := "base58btc" |} in
  _ ← validateCID cid;
  Ok cid.

(** [cid.toBaseEncodedString()] of a version 0 identifier. *)
Definition toBaseEncodedString (cid : t) : string :=
  multihash.toB58String (multihash cid).

End CID.

(** ** [create_CID] (index.js, lines 79-84) *)

Definition create_CID (content : string) : Js CID.t :=
  let* created := crypto.createHash "sha256" in
  let* updated := crypto.update created content in
  let* hash := crypto.digest updated in
  let* encoded := Js_lift (multihash.encode hash "sha2-256") in
  let* cid := Js_lift (CID.new_ (multihash.toB58String encoded)) in
  Js_ret cid.

(** The identifier the specification describes for [content]: version 0,
    the multihash made of the SHA-256 function code [0x12], the digest
    length [0x20] and the digest. *)
Definition cidv0_of (content : string) : CID.t :=
  {| CID.version := 0;
     CID.codec := "dag-pb";
     CID.multihash := x12 :: x20 :: SHA256.sha256 (list_byte_of_string content);
     CID.multibaseName := "base58btc" |}.

(** The hash object of one call: allocated past whatever the heap
    holds, fed the content once, and finalized. *)
Definition spent_hash (content : string) : Hash.t :=
  {| Hash.algorithm := "sha256";
     Hash.data := list_byte_of_string content;
     Hash.finalized := true |}.

(** ** [xor-distance] *)

Module xor_distance.

Definition byte_xor (a b : byte) : byte :=
  Bytes.of_N (N.lxor (Byte.to_N a) (Byte.to_N b)).

(** Modelled from the spec: the package [xor-distance] that [index.js]
    requires as [distance] is not part of the sources.  The distance is
    the bitwise exclusive-or of two byte strings of equal length, and
    fails with a length mismatch otherwise. *)
Definition distance (a b : list byte) : Result (list byte) :=
  if negb (length a =? length b)%nat then
    Throw (Error "Inputs should have the same length")
  else Ok (zip_with byte_xor a b).

(** The distance read as an unsigned big-endian integer, for ordering. *)
Definition magnitude (d : list byte) : N := Bytes.be_value d.

End xor_distance.

(** ** Collaborators of the closest-peer evaluator and of the harness *)

(** What an [async] generator hands to [for await]: finitely many items,
    then normal completion or a rejection. *)
Inductive AsyncIterable (A : Type) : Type :=
| Done
| Yield (item : A) (rest : AsyncIterable A)
| Rejected (e : JsError).
Arguments Done {A}.
Arguments Yield {A} item rest.
Arguments Rejected {A} e.

(** The iterable that yields the items of [l] in order and completes. *)
Fixpoint yields {A} (l : list A) : AsyncIterable A :=
  match l with
  | [] => Done
  | a :: l' => Yield a (yields l')
  end.

(** [uint8ArrayFromString(s)]: the UTF-8 bytes of the text. *)
Definition uint8ArrayFromString (s : string) : list byte := list_byte_of_string s.

Module PeerId.

(** Modelled from the spec: a peer identifier of the package [peer-id],
    with its canonical binary encoding and its canonical Base58 text;
    [index.js] reads the text through [toB58String()] and through the
    property [_idB58String] that caches it. *)
Record t : Type := { id : list byte; _idB58String : string }.

Definition toB58String (p : t) : string := _idB58String p.

End PeerId.

Module KadDHT.

(** Modelled from the spec: the routing capability of [libp2p-kad-dht]
    consumed by the evaluator; [getClosestPeers(key)] is a lazy, ordered,
    finite sequence of peer identifiers. *)
Record t : Type := { getClosestPeers : list byte → AsyncIterable PeerId.t }.

End KadDHT.

Abbreviation Multiaddr := string (only parsing).

Module AddressBook.

(** Modelled from the spec: [peerStore.addressBook] of [libp2p], the
    known addresses keyed by the Base58 text of the peer. *)
Abbreviation t := (gmap string (list Multiaddr)).

(** [book.set(peerId, multiaddrs)] seeds the entry of [peerId]. *)
Definition set (book : t) (peerId : PeerId.t) (multiaddrs : list Multiaddr) : t :=
  <[PeerId.toB58String peerId := multiaddrs]> book.

End AddressBook.

Module PeerStore.
Record t : Type := { addressBook : AddressBook.t }.
End PeerStore.

Module Libp2p.

(** A started node, with the properties the harness reads and writes. *)
Record t : Type := {
  peerId : PeerId.t;
  multiaddrs : list Multiaddr;
  peerStore : PeerStore.t;
  _dht : KadDHT.t
}.

(** [node.peerStore.addressBook.set(peerId, multiaddrs)], a mutation of
    [node] in place. *)
Definition addressBook_set (node : t) (p : PeerId.t) (addrs : list Multiaddr) : t :=
  {| peerId := peerId node;
     multiaddrs := multiaddrs node;
     peerStore :=
       {| PeerStore.addressBook :=
            AddressBook.set (PeerStore.addressBook (peerStore node)) p addrs |};
     _dht := _dht node |}.

End Libp2p.

(** ** [sort_closest_nodes_dht] (index.js, lines 122-131) *)

(** The [for await (let sorted of sorted_peers)] loop, with the array
    [closest_peers] it pushes to. *)
Fixpoint for_await_sorted (peers : list Libp2p.t)
    (sorted_peers : AsyncIterable PeerId.t) (closest_peers : list Z)
  : Result (list Z) :=
  match sorted_peers with
  | Done => Ok closest_peers
  | Rejected e => Throw e
  | Yield sorted rest =>
      let peer :=
        JsArray.findIndex
          (fun element =>
             String.eqb (PeerId.toB58String (Libp2p.peerId element))
                        (PeerId._idB58String sorted))
          peers in
      for_await_sorted peers rest (JsArray.push closest_peers peer)
  end.

Definition sort_closest_nodes_dht (peers : list Libp2p.t) (query : string)
  : Result (list Z) :=
  let query_key := uint8ArrayFromString query in
  first ← JsArray.at_ peers 0;
  let sorted_peers := KadDHT.getClosestPeers (Libp2p._dht first) query_key in
  let closest_peers := [] in
  for_await_sorted peers sorted_peers closest_peers.

(** The roster position [peers.findIndex(...)] gives a returned
    identifier: the first entry with the same Base58 text, or [-1]. *)
Definition roster_position (peers : list Libp2p.t) (sorted : PeerId.t) : Z :=
  JsArray.findIndex
    (fun element =>
       String.eqb (PeerId.toB58String (Libp2p.peerId element))
                  (PeerId._idB58String sorted))
    peers.

(** A returned identifier matches no roster entry. *)
Definition unmatched (peers : list Libp2p.t) (sorted : PeerId.t) : Prop :=
  ∀ element, element ∈ peers →
    PeerId.toB58String (Libp2p.peerId element) ≠ PeerId._idB58String sorted.

(** ** The harness up to the linked roster (index.js, lines 135-142) *)

(** [for (let index = start; ...; index++) body], run for [n] rounds over
    the state [s]; a throwing body ends the loop. *)
Fixpoint for_loop {S : Type} (n : nat) (index : nat)
    (body : nat → S → Result S) (s : S) : Result S :=
  match n with
  | O => Ok s
  | Datatypes.S n' => s' ← body index s; for_loop n' (Datatypes.S index) body s'
  end.

(** The first loop: forty calls of [createNode()]; [createNode k] is what
    the call of round [k] resolves to. *)
Definition start_nodes (createNode : nat → Result Libp2p.t) : Result (list Libp2p.t) :=
  for_loop 40 0
    (fun index nodes => node ← createNode index; Ok (JsArray.push nodes node))
    [].

(** The second loop, bounded by [nodes.length - 1] (which is [-1], hence
    no round, for an empty array). *)
Definition link_nodes (nodes : list Libp2p.t) : Result (list Libp2p.t) :=
  for_loop (Z.to_nat (Z.of_nat (length nodes) - 1)) 0
    (fun index nodes =>
       this ← JsArray.at_ nodes index;
       next ← JsArray.at_ nodes (index + 1);
       Ok (<[index := Libp2p.addressBook_set this (Libp2p.peerId next)
                        (Libp2p.multiaddrs next)]> nodes))
    nodes.

Definition main_linked_roster (createNode : nat → Result Libp2p.t)
  : Result (list Libp2p.t) :=
  nodes ← start_nodes createNode;
  link_nodes nodes.

(** The roster after the first [r] rounds of the second loop, from the
    nodes [n 0 .. n (size - 1)] as they were started: the members before
    [r] have had the entry of their successor set. *)
Definition linked_upto (n : nat → Libp2p.t) (size r : nat) : list Libp2p.t :=
  map (fun i =>
         if (i <? r)%nat then
           Libp2p.addressBook_set (n i) (Libp2p.peerId (n (i + 1)))
             (Libp2p.multiaddrs (n (i + 1)))
         else n i)
      (seq 0 size).

(** ** Fixtures *)

Module Fixture.

Definition peer (text : string) : PeerId.t :=
  {| PeerId.id := []; PeerId._idB58String := text |}.

(** A node whose routing capability answers every query with [closest]. *)
Definition node (text : string) (closest : list PeerId.t) : Libp2p.t :=
  {| Libp2p.peerId := peer text;
     Libp2p.multiaddrs := ["/ip4/127.0.0.1/tcp/4001/p2p/" +:+ text];
     Libp2p.peerStore := {| PeerStore.addressBook := ∅ |};
     Libp2p._dht := {| KadDHT.getClosestPeers := fun _ => yields closest |} |}.

(** Three nodes; the first one's capability returns the third, a peer
    outside the roster, and the first, in this order. *)
Definition roster : list Libp2p.t :=
  [ node "QmFirst" [peer "QmThird"; peer "QmStranger"; peer "QmFirst"];
    node "QmSecond" [];
    node "QmThird" [] ].

(** Started nodes with pairwise different identifiers. *)
Definition started (k : nat) : Libp2p.t :=
  node ("Qm" +:+ String (ascii_of_nat (48 + k)) "") [].

End Fixture.

(** The items an iterable yields before it ends. *)
Fixpoint yielded {A} (iterable : AsyncIterable A) : list A :=
  match iterable with
  | Done => []
  | Rejected _ => []
  | Yield item rest => item :: yielded rest
  end.

(** The error an iterable ends with, if it does not complete. *)
Fixpoint rejection {A} (iterable : AsyncIterable A) : option JsError :=
  match iterable with
  | Done => None
  | Rejected e => Some e
  | Yield _ rest => rejection rest
  end.

(** The Base58 texts of the roster, in order. *)
Definition roster_texts (peers : list Libp2p.t) : list string :=
  map (fun element => PeerId.toB58String (Libp2p.peerId element)) peers.

(** ** [map_nodes_to_peerids] (index.js, lines 96-107) *)

Record NodeMappings : Type := {
  node_mappings : list string;
  node_peerIds : list PeerId.t
}.

(** [nodes.forEach] with its two [push]es, over the pair of arrays. *)
Definition map_nodes_to_peerids (nodes : list Libp2p.t) : NodeMappings :=
  let arrays :=
    fold_left
      (fun (arrays : list string * list PeerId.t) node =>
         (JsArray.push (fst arrays) (PeerId.toB58String (Libp2p.peerId node)),
          JsArray.push (snd arrays) (Libp2p.peerId node)))
      nodes ([], []) in
  {| node_mappings := fst arrays; node_peerIds := snd arrays |}.

(** ** The run of the program (index.js, lines 134-183) *)

(** [arr[i]] for a number [i]: [undefined] outside the array, in
    particular at the sentinel [-1]. *)
Definition array_get {A} (arr : list A) (i : Z) : option A :=
  if (i <? 0)%Z then None else arr !! Z.to_nat i.

(** [arr[i]] dereferenced at once. *)
Definition array_at {A} (arr : list A) (i : Z) : Result A :=
  match array_get arr i with
  | Some x => Ok x
  | None => Throw (TypeError "Cannot read properties of undefined")
  end.

(** A string operand of [+]; [undefined] reads as its name. *)
Definition string_operand (v : option string) : string :=
  match v with
  | Some s => s
  | None => "undefined"
  end.

Module Provider.
(** What [findProviders] yields. *)
Record t : Type := { id : PeerId.t; multiaddrs : list Multiaddr }.
End Provider.

(** The arguments of a [console.log] call. *)
Inductive LogArg : Type :=
| Text (s : string)
| Number (z : Z)
| Names (names : list string)
| Providers (providers : list Provider.t).

(** What the run does to the outside, in order. *)
Inductive Event : Type :=
| Log (args : list LogArg)
| Delay (ms : Z)
| Provide (node : Libp2p.t) (content : CID.t)
| Stop (node : Libp2p.t).

(** The collaborators of the run, each as the answer it gives when the
    program calls it: [createNode k] for round [k] of the first loop,
    [provide] for [node.contentRouting.provide(cid)], [findProviders] for
    [node.contentRouting.findProviders(cid)], [datastore_keys] for
    [Object.keys(node._dht.providers.datastore['data'])], [decodeBase32]
    for [utils.decodeBase32] and [createFromBytes] for
    [PeerId.createFromBytes]. *)
Record Collaborators : Type := {
  createNode : nat → Result Libp2p.t;
  provide : Libp2p.t → CID.t → Result unit;
  findProviders : Libp2p.t → CID.t → AsyncIterable Provider.t;
  datastore_keys : Libp2p.t → list string;
  decodeBase32 : string → Result (list byte);
  createFromBytes : list byte → Result PeerId.t
}.

(** The state a run threads: the heap of hash objects and the events so
    far. *)
Record World : Type := { heap : Heap; trace : list Event }.

Definition Run (A : Type) : Type := World → Result A * World.

Definition Run_ret {A} (a : A) : Run A := fun w => (Ok a, w).

Definition Run_bind {A B} (m : Run A) (k : A → Run B) : Run B :=
  fun w =>
    match m w with
    | (Ok a, w') => k a w'
    | (Throw e, w') => (Throw e, w')
    end.

Notation "'run*' x := m 'in' k" := (Run_bind m (fun x => k))
  (at level 10, x name, m at level 100, k at level 200).

(** An awaited promise or an expression that may throw. *)
Definition await {A} (r : Result A) : Run A := fun w => (r, w).

(** An effect on the outside. *)
Definition emit (e : Event) : Run unit :=
  fun w => (Ok tt, {| heap := heap w; trace := trace w ++ [e] |}).

(** Code that works on the heap of hash objects. *)
Definition on_heap {A} (m : Js A) : Run A :=
  fun w =>
    let '(r, heap') := m (heap w) in
    (r, {| heap := heap'; trace := trace w |}).

(** [await all(iterable)]: the items in order, or the rejection. *)
Fixpoint all {A} (iterable : AsyncIterable A) (items : list A) : Result (list A) :=
  match iterable with
  | Done => Ok items
  | Rejected e => Throw e
  | Yield item rest => all rest (JsArray.push items item)
  end.

(** The callback of [data.forEach] (lines 167-172), for one key. *)
Definition report_entry (c : Collaborators) (item : string) : Run unit :=
  run* entry := await (parseProviderKey item) in
  let peer_b32 := peerId entry in
  run* peer_raw := await (decodeBase32 c peer_b32) in
  run* id := await (createFromBytes c peer_raw) in
  emit (Log [Text (String "009"%char "Datastore entry:"); Text (PeerId.toB58String id)]).

(** [data.forEach(...)]: a throwing callback ends the iteration. *)
Fixpoint report_datastore (c : Collaborators) (data : list string) : Run unit :=
  match data with
  | [] => Run_ret tt
  | item :: rest =>
      run* _ := report_entry c item in
      report_datastore c rest
  end.

(** The loop over [dhtnodes] (lines 163-174); [positions] are the
    elements [dhtnodes[index]] still to visit.  [Object.keys] gives an
    array, so the test [if(data)] always passes. *)
Fixpoint report_closest (c : Collaborators) (nodes : list Libp2p.t)
    (node_mappings : list string) (positions : list Z) : Run unit :=
  match positions with
  | [] => Run_ret tt
  | position :: rest =>
      run* _ :=
        emit (Log [Text "Node ";
                   Text (pretty position +:+ " : "
                         +:+ string_operand (array_get node_mappings position))]) in
      run* node := await (array_at nodes position) in
      let data := datastore_keys c node in
      run* _ := report_datastore c data in
      report_closest c nodes node_mappings rest
  end.

(** [nodes.forEach((node) => { node.stop() })] *)
Definition stop_all (nodes : list Libp2p.t) : Run unit :=
  fun w => (Ok tt, {| heap := heap w; trace := trace w ++ map Stop nodes |}).

Definition main (c : Collaborators) : Run unit :=
  run* nodes := await (main_linked_roster (createNode c)) in
  let mappings := map_nodes_to_peerids nodes in
  run* _ := emit (Log [Text "Current node addresses: ";
                       Names (node_mappings mappings)]) in
  run* _ := emit (Delay 10000) in
  let last_node := (Z.of_nat (length nodes) - 1)%Z in
  run* cid := on_heap (create_CID "hello world!") in
  run* provider := await (array_at nodes last_node) in
  run* _ := emit (Provide provider cid) in
  run* _ := await (provide c provider cid) in
  run* last := await (array_at nodes last_node) in
  run* _ := emit (Log [Text "Node %s: %s is providing content %s";
                       Number (Z.of_nat (length nodes));
                       Text (PeerId.toB58String (Libp2p.peerId last));
                       Text (CID.toBaseEncodedString cid)]) in
  run* dhtnodes := await (sort_closest_nodes_dht nodes "hello world!") in
  run* _ := emit (Log [Text (String "010"%char
                               "Closest nodes to the provided content based on the DHT:");
                       Number (Z.of_nat (length dhtnodes))]) in
  run* _ := report_closest c nodes (node_mappings mappings) dhtnodes in
  run* first := await (JsArray.at_ nodes 0) in
  run* providers := await (all (findProviders c first cid) []) in
  run* found := await (JsArray.at_ providers 0) in
  run* _ := emit (Log [Text (String "010"%char " Node 0 Found provider:");
                       Text (PeerId.toB58String (Provider.id found));
                       Providers providers]) in
  stop_all nodes.

(** A key whose callback in [data.forEach] runs to its end: the key
    parses, its fourth segment decodes, and the bytes make an identifier. *)
Definition reportable (c : Collaborators) (item : string) : Prop :=
  ∃ entry peer_raw id,
    parseProviderKey item = Ok entry ∧
    decodeBase32 c (peerId entry) = Ok peer_raw ∧
    createFromBytes c peer_raw = Ok id.

Definition is_Stop (ev : Event) : bool :=
  match ev with
  | Stop _ => true
  | _ => false
  end.

(** A computation that only appends events to the trace, none of them
    the stop of a node. *)
Definition quiet {A} (m : Run A) : Prop :=
  ∀ w, ∃ evs,
    trace (snd (m w)) = trace w ++ evs ∧ Forall (fun ev => is_Stop ev = false) evs.

(** A computation that stops no node when it throws and, when it
    completes, stops the nodes of [nodes] in order as its last events. *)
Definition stops_last (nodes : list Libp2p.t) (m : Run unit) : Prop :=
  ∀ w, ∃ evs,
    Forall (fun ev => is_Stop ev = false) evs ∧
    ((is_Throw (fst (m w)) ∧ trace (snd (m w)) = trace w ++ evs) ∨
     (fst (m w) = Ok tt ∧ trace (snd (m w)) = trace w ++ evs ++ map Stop nodes)).

(** A computation that only appends events to the trace, all of them
    of the kinds [allowed]. *)
Definition calm {A} (allowed : Event → bool) (m : Run A) : Prop :=
  ∀ w, ∃ evs,
    trace (snd (m w)) = trace w ++ evs ∧ Forall (fun ev => allowed ev = true) evs.

Definition is_Log_or_Stop (ev : Event) : bool :=
  match ev with
  | Log _ | Stop _ => true
  | _ => false
  end.

(** ** Further fixtures *)

Module Scenario.

(** Two roster entries with the same identifier. *)
Definition twins : list Libp2p.t :=
  [ Fixture.node "QmTwin" [Fixture.peer "QmTwin"]; Fixture.node "QmTwin" [] ].

(** The sixth [createNode()] call rejects. *)
Definition failing_createNode (k : nat) : Result Libp2p.t :=
  if (k =? 5)%nat then Throw (Error "listen EADDRINUSE") else Ok (Fixture.started k).

(** Forty nodes; the routing capability of the first returns a peer
    that is none of them. *)
Definition started (k : nat) : Libp2p.t :=
  Fixture.node ("Qm" +:+ String (ascii_of_nat (48 + k)) "")
    (if (k =? 0)%nat then [Fixture.peer "QmStranger"] else []).

(** Collaborators that start the nodes [start k], accept the
    advertisement, hold the given datastore keys at every node, find the
    given providers, and decode every text to the same identifier. *)
Definition collaborators (start : nat → Libp2p.t) (keys : list string)
    (found : list Provider.t) : Collaborators :=
  {| createNode := fun k => Ok (start k);
     provide := fun _ _ => Ok tt;
     findProviders := fun _ _ => yields found;
     datastore_keys := fun _ => keys;
     decodeBase32 := fun _ => Ok [];
     createFromBytes := fun _ => Ok (Fixture.peer "QmDecoded") |}.

Definition world : World := {| heap := []; trace := [] |}.

Definition name (k : nat) : string := "Qm" +:+ String (ascii_of_nat (48 + k)) "".

(** Forty nodes; the routing capability of the first returns the last
    node and the first. *)
Definition members (k : nat) : Libp2p.t :=
  Fixture.node (name k)
    (if (k =? 0)%nat then [Fixture.peer (name 39); Fixture.peer (name 0)] else []).

Definition provider_key : string :=
  "/providers/QmWDXASJ7wW316RRQi57fSXTscfnZ7vN2mJXVkXE8t5m5a/CIQPEER".

Definition found : list Provider.t :=
  [ {| Provider.id := Fixture.peer (name 39); Provider.multiaddrs := [] |} ].

End Scenario.

(** * Properties *)

(** ** Splitting strings *)

Section SplitFacts.
Import JsString.
Variable sep : ascii.

Lemma split_nonempty s : split sep s ≠ [].
Proof.
  destruct s as [|c s]; simpl; [discriminate|].
  destruct (Ascii.eqb c sep); [discriminate|].
  destruct (split sep s); discriminate.
Qed.

Lemma split_length s : length (split sep s) = S (occurrences sep s).
Proof.
  induction s as [|c s IH]; simpl; [reflexivity|].
  destruct (Ascii.eqb c sep); simpl.
  - now rewrite IH.
  - destruct (split sep s) eqn:E; simpl in *; [discriminate IH | exact IH].
Qed.

(** A string without separator is its own single segment. *)
Lemma split_no_sep s : occurrences sep s = 0 → split sep s = [s].
Proof.
  induction s as [|c s IH]; simpl; [reflexivity|].
  destruct (Ascii.eqb c sep); simpl; [discriminate|].
  intros H. now rewrite (IH H).
Qed.

(** Splitting distributes over a separator in the middle. *)
Lemma split_app_sep a b :
  split sep (a +:+ String sep b) = split sep a ++ split sep b.
Proof.
  induction a as [|c a IH]; simpl.
  - now rewrite Ascii.eqb_refl.
  - rewrite IH. destruct (Ascii.eqb c sep); [reflexivity|].
    pose proof (split_nonempty a) as Hne.
    destruct (split sep a); [contradiction | reflexivity].
Qed.

Lemma occurrences_app a b :
  occurrences sep (a +:+ b) = occurrences sep a + occurrences sep b.
Proof. induction a as [|c a IH]; simpl; [reflexivity | rewrite IH; lia]. Qed.

End SplitFacts.

(** ** Provider record keys *)

Section ParseProviderKey.
Import JsString.

Lemma parseProviderKey_four key s0 s1 s2 s3 :
  split "/" key = [s0; s1; s2; s3] →
  parseProviderKey key = Ok {| cid := s2; peerId := s3 |}.
Proof. intros Hparts. unfold parseProviderKey. now rewrite Hparts. Qed.

Lemma parseProviderKey_other key :
  length (split "/" key) ≠ 4 →
  parseProviderKey key = Throw (MalformedKey key).
Proof.
  intros Hlen. unfold parseProviderKey.
  destruct (Nat.eqb_spec (length (split "/" key)) 4); [contradiction | reflexivity].
Qed.

Lemma length_four {A} (l : list A) :
  length l = 4 → ∃ a b c d, l = [a; b; c; d].
Proof.
  destruct l as [|a [|b [|c [|d [|e l]]]]]; try discriminate.
  intros _. now exists a, b, c, d.
Qed.

(** The segments of a key laid out as [/providers/<cid>/<peer>]. *)
Lemma split_providerKey c p :
  split "/" (providerKey c p) = "" :: "providers" :: split "/" c ++ split "/" p.
Proof.
  change (providerKey c p)
    with ("" +:+ String "/" ("providers" +:+ String "/" (c +:+ String "/" p))).
  now rewrite !split_app_sep.
Qed.

Lemma wellFormedKey_providerKey c p :
  wellFormedKey (providerKey c p) ↔
  occurrences "/" c = 0 ∧ occurrences "/" p = 0.
Proof.
  unfold wellFormedKey. rewrite split_providerKey. simpl.
  rewrite length_app, !split_length. lia.
Qed.

(** C2: [parseProviderKey] throws its malformed-key error exactly when
    the key does not split on the slash into four segments, and returns
    an entry for every key that does. *)
Theorem parseProviderKey_MalformedKey_iff (key : string) :
  (parseProviderKey key = Throw (MalformedKey key) ↔
     length (split "/" key) ≠ 4) ∧
  (is_Throw (parseProviderKey key) ↔ length (split "/" key) ≠ 4) ∧
  (length (split "/" key) = 4 ↔ ∃ entry, parseProviderKey key = Ok entry).
Proof.
  destruct (Nat.eq_dec (length (split "/" key)) 4) as [Heq | Hne].
  - destruct (length_four _ Heq) as (s0 & s1 & s2 & s3 & Hparts).
    rewrite (parseProviderKey_four _ _ _ _ _ Hparts).
    split; [|split]; split.
    + discriminate.
    + intros Hne. now destruct Hne.
    + intros [e He]. discriminate He.
    + intros Hne. now destruct Hne.
    + intros _. eauto.
    + intros _. exact Heq.
  - rewrite (parseProviderKey_other _ Hne).
    split; [|split]; split.
    + intros _. exact Hne.
    + reflexivity.
    + intros _. exact Hne.
    + intros _. now exists (MalformedKey key).
    + intros Heq. now destruct Hne.
    + intros [entry He]. discriminate He.
Qed.

(** C3: parsing a well-formed key built as
    [/providers/<cidText>/<peerText>] gives back exactly
    [(cidText, peerText)]. *)
Theorem parseProviderKey_roundtrip (cidText peerText : string) :
  wellFormedKey (providerKey cidText peerText) →
  parseProviderKey (providerKey cidText peerText)
  = Ok {| cid := cidText; peerId := peerText |}.
Proof.
  intros Hwf. apply wellFormedKey_providerKey in Hwf as [Hc Hp].
  apply (parseProviderKey_four _ "" "providers").
  rewrite split_providerKey.
  now rewrite (split_no_sep _ _ Hc), (split_no_sep _ _ Hp).
Qed.

Lemma parseProviderKey_roundtrip_witness :
  wellFormedKey (providerKey "QmWDXASJ7wW316RRQi57fSXTscfnZ7vN2mJXVkXE8t5m5a" "CIQABCDE") ∧
  parseProviderKey (providerKey "QmWDXASJ7wW316RRQi57fSXTscfnZ7vN2mJXVkXE8t5m5a" "CIQABCDE")
  = Ok {| cid := "QmWDXASJ7wW316RRQi57fSXTscfnZ7vN2mJXVkXE8t5m5a";
          peerId := "CIQABCDE" |}.
Proof.
  split; [reflexivity|].
  apply (parseProviderKey_roundtrip
           "QmWDXASJ7wW316RRQi57fSXTscfnZ7vN2mJXVkXE8t5m5a" "CIQABCDE").
  reflexivity.
Defined.

(** C9: only the number of segments is validated.  Every key that
    splits into four segments is accepted, whatever the segments are --
    the second need not be [providers], any may be empty -- and the third
    and fourth segments are returned. *)
Theorem parseProviderKey_validates_count_only (key : string) :
  length (split "/" key) = 4 →
  ∃ s0 s1 s2 s3,
    split "/" key = [s0; s1; s2; s3] ∧
    parseProviderKey key = Ok {| cid := s2; peerId := s3 |}.
Proof.
  intros Hlen. destruct (length_four _ Hlen) as (s0 & s1 & s2 & s3 & Hparts).
  exists s0, s1, s2, s3. split; [exact Hparts|].
  now apply (parseProviderKey_four key s0 s1).
Qed.

Lemma parseProviderKey_validates_count_only_witness :
  ∃ s0 s1 s2 s3,
    split "/" "x/not-providers//" = [s0; s1; s2; s3] ∧
    parseProviderKey "x/not-providers//" = Ok {| cid := s2; peerId := s3 |}.
Proof.
  apply (parseProviderKey_validates_count_only "x/not-providers//").
  reflexivity.
Defined.

(** A key with a foreign second segment and two empty segments. *)
Example parseProviderKey_not_providers :
  parseProviderKey "x/not-providers//" = Ok {| cid := ""; peerId := "" |}.
Proof. reflexivity. Qed.

(** Any four slash-free segments joined by slashes form an accepted key. *)
Lemma parseProviderKey_any_segments s0 s1 s2 s3 :
  occurrences "/" s0 = 0 → occurrences "/" s1 = 0 →
  occurrences "/" s2 = 0 → occurrences "/" s3 = 0 →
  parseProviderKey (s0 +:+ String "/" (s1 +:+ String "/" (s2 +:+ String "/" s3)))
  = Ok {| cid := s2; peerId := s3 |}.
Proof.
  intros H0 H1 H2 H3. apply (parseProviderKey_four _ s0 s1).
  rewrite !split_app_sep.
  now rewrite (split_no_sep _ _ H0), (split_no_sep _ _ H1),
    (split_no_sep _ _ H2), (split_no_sep _ _ H3).
Qed.

(** The failing example of the specification. *)
Example parseProviderKey_onlyonecid :
  parseProviderKey "/providers/onlyonecid"
  = Throw (MalformedKey "/providers/onlyonecid").
Proof. reflexivity. Qed.

End ParseProviderKey.

(** ** Arrays and loops *)

Section ArrayFacts.
Import JsArray.
Context {A : Type} (p : A → bool).

Lemma findIndex_from_none arr k :
  (∀ x, x ∈ arr → p x = false) → findIndex_from p arr k = (-1)%Z.
Proof.
  revert k. induction arr as [|a arr IH]; intros k Hall; simpl; [reflexivity|].
  rewrite (Hall a) by apply list_elem_of_here.
  apply IH. intros x Hx. apply Hall. now apply list_elem_of_further.
Qed.

(** A scan either finds nothing, or stops at the first hit. *)
Lemma findIndex_from_spec arr k :
  (findIndex_from p arr k = (-1)%Z ∧ ∀ x, x ∈ arr → p x = false) ∨
  (∃ (j : nat) (x : A),
      findIndex_from p arr k = (k + Z.of_nat j)%Z ∧
      arr !! j = Some x ∧ p x = true ∧
      ∀ (i : nat) (y : A), i < j → arr !! i = Some y → p y = false).
Proof.
  revert k. induction arr as [|a arr IH]; intros k; simpl.
  - left. split; [reflexivity|]. intros x Hx. inversion Hx.
  - destruct (p a) eqn:Hpa.
    + right. exists 0, a. repeat split; [lia | assumption | lia].
    + destruct (IH (k + 1)%Z) as [[Hnone Hall] | (j & x & Hj & Hx & Hpx & Hbefore)].
      * left. split; [assumption|].
        intros x Hx. apply elem_of_cons in Hx as [-> | Hx]; auto.
      * right. exists (S j), x. repeat split; [lia | assumption | assumption |].
        intros [|i] y Hlt Hy; simpl in Hy.
        -- now injection Hy as <-.
        -- apply (Hbefore i y); [lia | assumption].
Qed.

Lemma findIndex_none_iff arr :
  findIndex p arr = (-1)%Z ↔ ∀ x, x ∈ arr → p x = false.
Proof.
  split; [|apply findIndex_from_none].
  unfold findIndex.
  destruct (findIndex_from_spec arr 0) as [[_ Hall] | (j & x & Hj & _)];
    [now intros _ | lia].
Qed.

Lemma at_lookup (arr : list A) (i : nat) (x : A) :
  arr !! i = Some x → at_ arr i = Ok x.
Proof. intros H. unfold at_. now rewrite H. Qed.

End ArrayFacts.

(** ** The closest-peer evaluator *)

(** Read a [map] as stdpp's [<$>], whose lookup lemmas then apply. *)
Ltac as_fmap :=
  repeat match goal with
         | |- context [map ?f ?l] => change (map f l) with (f <$> l)
         end.

Section ClosestPeers.
Import JsArray.

(** The loop pushes one roster position per yielded identifier, after
    what [closest_peers] already holds. *)
Lemma for_await_sorted_yields peers sorted_ids closest_peers :
  for_await_sorted peers (yields sorted_ids) closest_peers
  = Ok (closest_peers ++ map (roster_position peers) sorted_ids).
Proof.
  revert closest_peers.
  induction sorted_ids as [|sorted sorted_ids IH]; intros closest_peers; simpl.
  - now rewrite app_nil_r.
  - rewrite IH. unfold push. now rewrite <- app_assoc.
Qed.

(** A rejection of the capability, after any number of items, rejects
    the evaluator with the same error. *)
Lemma for_await_sorted_rejected peers sorted_ids e closest_peers :
  for_await_sorted peers
    (fold_right Yield (Rejected e) sorted_ids) closest_peers = Throw e.
Proof.
  revert closest_peers.
  induction sorted_ids as [|sorted sorted_ids IH]; intros closest_peers; simpl;
    [reflexivity | apply IH].
Qed.

Lemma sort_closest_nodes_dht_yields peers first query sorted_ids :
  peers !! 0 = Some first →
  KadDHT.getClosestPeers (Libp2p._dht first) (uint8ArrayFromString query)
    = yields sorted_ids →
  sort_closest_nodes_dht peers query
  = Ok (map (roster_position peers) sorted_ids).
Proof.
  intros Hfirst Hcap. unfold sort_closest_nodes_dht, at_.
  rewrite Hfirst. simpl. rewrite Hcap. apply for_await_sorted_yields.
Qed.

(** With an empty roster there is no [peers[0]] to ask. *)
Lemma sort_closest_nodes_dht_empty query :
  is_Throw (sort_closest_nodes_dht [] query).
Proof. eexists. reflexivity. Qed.

Lemma roster_position_unmatched peers sorted :
  roster_position peers sorted = (-1)%Z ↔ unmatched peers sorted.
Proof.
  unfold roster_position, unmatched. rewrite findIndex_none_iff.
  split; intros H element Hin; specialize (H element Hin).
  - now apply String.eqb_neq.
  - now apply String.eqb_neq.
Qed.

(** A position other than the sentinel is that of the first roster
    entry whose Base58 text is the identifier's. *)
Lemma roster_position_matched peers sorted :
  roster_position peers sorted ≠ (-1)%Z →
  ∃ (j : nat) element,
    roster_position peers sorted = Z.of_nat j ∧
    peers !! j = Some element ∧
    PeerId.toB58String (Libp2p.peerId element) = PeerId._idB58String sorted ∧
    ∀ (i : nat) other, i < j → peers !! i = Some other →
      PeerId.toB58String (Libp2p.peerId other) ≠ PeerId._idB58String sorted.
Proof.
  intros Hpos. unfold roster_position, findIndex in *.
  match goal with |- context [findIndex_from ?p _ _] =>
    destruct (findIndex_from_spec p peers 0)
      as [[Hnone _] | (j & x & Hj & Hx & Hpx & Hbefore)] end;
    [contradiction|].
  exists j, x. rewrite Hj. repeat split; [assumption | |].
  - now apply String.eqb_eq.
  - intros i other Hlt Hother. apply String.eqb_neq. eauto.
Qed.

(** C4: the i-th emitted roster position is the one resolving the i-th
    identifier the capability returned; the order received is kept. *)
Theorem sort_closest_nodes_dht_mirrors_order
    (peers : list Libp2p.t) (first : Libp2p.t) (query : string)
    (sorted_ids : list PeerId.t) :
  peers !! 0 = Some first →
  KadDHT.getClosestPeers (Libp2p._dht first) (uint8ArrayFromString query)
    = yields sorted_ids →
  ∃ closest_peers,
    sort_closest_nodes_dht peers query = Ok closest_peers ∧
    closest_peers = map (roster_position peers) sorted_ids ∧
    ∀ (i : nat) sorted, sorted_ids !! i = Some sorted →
      closest_peers !! i = Some (roster_position peers sorted) ∧
      ∀ j : nat, closest_peers !! i = Some (Z.of_nat j) →
        ∃ element, peers !! j = Some element ∧
          PeerId.toB58String (Libp2p.peerId element)
          = PeerId._idB58String sorted.
Proof.
  intros Hfirst Hcap. eexists. split; [|split; [reflexivity|]].
  - now apply (sort_closest_nodes_dht_yields _ first).
  - intros i sorted Hi.
    assert (map (roster_position peers) sorted_ids !! i
            = Some (roster_position peers sorted)) as Hpos.
    { as_fmap. now rewrite list_lookup_fmap, Hi. }
    split; [exact Hpos|].
    intros j Hj. rewrite Hpos in Hj. injection Hj as Hj.
    destruct (roster_position_matched peers sorted) as (j' & el & Hj' & Hel & Heq & _);
      [lia|].
    assert (j' = j) as -> by lia. eauto.
Qed.

(** C10: the returned list is as long as the sequence of yielded
    identifiers, and an identifier without roster entry contributes the
    sentinel [-1]. *)
Theorem sort_closest_nodes_dht_length_sentinel
    (peers : list Libp2p.t) (first : Libp2p.t) (query : string)
    (sorted_ids : list PeerId.t) :
  peers !! 0 = Some first →
  KadDHT.getClosestPeers (Libp2p._dht first) (uint8ArrayFromString query)
    = yields sorted_ids →
  ∃ closest_peers,
    sort_closest_nodes_dht peers query = Ok closest_peers ∧
    length closest_peers = length sorted_ids ∧
    ∀ (i : nat) sorted, sorted_ids !! i = Some sorted →
      unmatched peers sorted → closest_peers !! i = Some (-1)%Z.
Proof.
  intros Hfirst Hcap. eexists. split; [|split].
  - exact (sort_closest_nodes_dht_yields peers first query sorted_ids Hfirst Hcap).
  - apply length_map.
  - intros i sorted Hi Hun.
    as_fmap. rewrite list_lookup_fmap, Hi. simpl.
    now rewrite (proj2 (roster_position_unmatched peers sorted) Hun).
Qed.

(** C1 (as the code has it): an identifier without roster entry does
    not make the evaluator fail; it returns normally and the sentinel
    [-1] stands at the position of that identifier. *)
Theorem sort_closest_nodes_dht_unknown_peer_recorded
    (peers : list Libp2p.t) (first : Libp2p.t) (query : string)
    (sorted_ids : list PeerId.t) (i : nat) (sorted : PeerId.t) :
  peers !! 0 = Some first →
  KadDHT.getClosestPeers (Libp2p._dht first) (uint8ArrayFromString query)
    = yields sorted_ids →
  sorted_ids !! i = Some sorted →
  unmatched peers sorted →
  ¬ is_Throw (sort_closest_nodes_dht peers query) ∧
  ∃ closest_peers,
    sort_closest_nodes_dht peers query = Ok closest_peers ∧
    closest_peers !! i = Some (-1)%Z.
Proof.
  intros Hfirst Hcap Hi Hun.
  rewrite (sort_closest_nodes_dht_yields peers first query sorted_ids Hfirst Hcap).
  split.
  - intros [e He]. discriminate He.
  - eexists. split; [reflexivity|].
    as_fmap. rewrite list_lookup_fmap, Hi. simpl.
    now rewrite (proj2 (roster_position_unmatched peers sorted) Hun).
Qed.

Lemma sort_closest_nodes_dht_mirrors_order_witness :
  sort_closest_nodes_dht Fixture.roster "hello world!" = Ok [2; -1; 0]%Z ∧
  ∃ closest_peers,
    sort_closest_nodes_dht Fixture.roster "hello world!" = Ok closest_peers ∧
    closest_peers
    = map (roster_position Fixture.roster)
        [Fixture.peer "QmThird"; Fixture.peer "QmStranger"; Fixture.peer "QmFirst"] ∧
    ∀ (i : nat) sorted,
      [Fixture.peer "QmThird"; Fixture.peer "QmStranger"; Fixture.peer "QmFirst"] !! i
        = Some sorted →
      closest_peers !! i = Some (roster_position Fixture.roster sorted) ∧
      ∀ j : nat, closest_peers !! i = Some (Z.of_nat j) →
        ∃ element, Fixture.roster !! j = Some element ∧
          PeerId.toB58String (Libp2p.peerId element)
          = PeerId._idB58String sorted.
Proof.
  split; [reflexivity|].
  apply (sort_closest_nodes_dht_mirrors_order Fixture.roster
           (Fixture.node "QmFirst"
              [Fixture.peer "QmThird"; Fixture.peer "QmStranger"; Fixture.peer "QmFirst"])
           "hello world!");
    reflexivity.
Defined.

Lemma sort_closest_nodes_dht_length_sentinel_witness :
  ∃ closest_peers,
    sort_closest_nodes_dht Fixture.roster "hello world!" = Ok closest_peers ∧
    length closest_peers = 3 ∧
    ∀ (i : nat) sorted,
      [Fixture.peer "QmThird"; Fixture.peer "QmStranger"; Fixture.peer "QmFirst"] !! i
        = Some sorted →
      unmatched Fixture.roster sorted → closest_peers !! i = Some (-1)%Z.
Proof.
  apply (sort_closest_nodes_dht_length_sentinel Fixture.roster
           (Fixture.node "QmFirst"
              [Fixture.peer "QmThird"; Fixture.peer "QmStranger"; Fixture.peer "QmFirst"])
           "hello world!"
           [Fixture.peer "QmThird"; Fixture.peer "QmStranger"; Fixture.peer "QmFirst"]);
    reflexivity.
Defined.

Lemma stranger_unmatched : unmatched Fixture.roster (Fixture.peer "QmStranger").
Proof. apply roster_position_unmatched. reflexivity. Qed.

Lemma stranger_returned :
  Fixture.peer "QmStranger"
  ∈ [Fixture.peer "QmThird"; Fixture.peer "QmStranger"; Fixture.peer "QmFirst"].
Proof. apply list_elem_of_further, list_elem_of_here. Qed.

Lemma sort_closest_nodes_dht_unknown_peer_recorded_witness :
  ¬ is_Throw (sort_closest_nodes_dht Fixture.roster "hello world!") ∧
  ∃ closest_peers,
    sort_closest_nodes_dht Fixture.roster "hello world!" = Ok closest_peers ∧
    closest_peers !! 1 = Some (-1)%Z.
Proof.
  apply (sort_closest_nodes_dht_unknown_peer_recorded Fixture.roster
           (Fixture.node "QmFirst"
              [Fixture.peer "QmThird"; Fixture.peer "QmStranger"; Fixture.peer "QmFirst"])
           "hello world!"
           [Fixture.peer "QmThird"; Fixture.peer "QmStranger"; Fixture.peer "QmFirst"]
           1 (Fixture.peer "QmStranger"));
    [reflexivity | reflexivity | reflexivity | exact stranger_unmatched].
Defined.

(** C1 as stated does not hold of the code: the capability of the
    fixture returns a peer outside the roster, and the evaluator
    returns [[2; -1; 0]] instead of failing. *)
Lemma sort_closest_nodes_dht_unknown_peer_not_surfaced :
  ¬ (∀ (peers : list Libp2p.t) (first : Libp2p.t) (query : string)
       (sorted_ids : list PeerId.t) (sorted : PeerId.t),
        peers !! 0 = Some first →
        KadDHT.getClosestPeers (Libp2p._dht first) (uint8ArrayFromString query)
          = yields sorted_ids →
        sorted ∈ sorted_ids →
        unmatched peers sorted →
        is_Throw (sort_closest_nodes_dht peers query)).
Proof.
  intros Hclaim.
  destruct (Hclaim Fixture.roster
              (Fixture.node "QmFirst"
                 [Fixture.peer "QmThird"; Fixture.peer "QmStranger"; Fixture.peer "QmFirst"])
              "hello world!"
              [Fixture.peer "QmThird"; Fixture.peer "QmStranger"; Fixture.peer "QmFirst"]
              (Fixture.peer "QmStranger")) as [e He];
    [reflexivity | reflexivity | exact stranger_returned | exact stranger_unmatched |].
  discriminate He.
Qed.

End ClosestPeers.

(** ** The harness: started and linked roster *)

Section Harness.
Import JsArray.
Variable createNode : nat → Result Libp2p.t.
Variable n : nat → Libp2p.t.

(** Rounds [index .. index + k - 1] of the first loop, when each of
    their [createNode()] calls resolves. *)
Lemma start_loop_resolved k index nodes :
  (∀ j, index ≤ j < index + k → createNode j = Ok (n j)) →
  for_loop k index
    (fun index nodes => node ← createNode index; Ok (push nodes node)) nodes
  = Ok (nodes ++ map n (seq index k)).
Proof.
  revert index nodes. induction k as [|k IH]; intros index nodes Hres; simpl.
  - now rewrite app_nil_r.
  - rewrite (Hres index) by lia. simpl.
    rewrite IH by (intros j Hj; apply Hres; lia).
    unfold push. now rewrite <- app_assoc.
Qed.

Lemma start_nodes_resolved :
  (∀ k, k < 40 → createNode k = Ok (n k)) →
  start_nodes createNode = Ok (map n (seq 0 40)).
Proof.
  intros Hres. unfold start_nodes.
  rewrite start_loop_resolved by (intros j Hj; apply Hres; lia).
  reflexivity.
Qed.

(** A rejected [createNode()] ends the run. *)
Lemma start_loop_rejected k index nodes j e :
  index ≤ j < index + k →
  (∀ i, index ≤ i < j → createNode i = Ok (n i)) →
  createNode j = Throw e →
  for_loop k index
    (fun index nodes => node ← createNode index; Ok (push nodes node)) nodes
  = Throw e.
Proof.
  revert index nodes. induction k as [|k IH]; intros index nodes Hj Hres He; simpl;
    [lia|].
  destruct (Nat.eq_dec index j) as [-> | Hne].
  - now rewrite He.
  - rewrite (Hres index) by lia. simpl.
    apply IH; [lia | intros i Hi; apply Hres; lia | assumption].
Qed.

Lemma linked_upto_length size r : length (linked_upto n size r) = size.
Proof. unfold linked_upto. now rewrite length_map, length_seq. Qed.

Lemma linked_upto_lookup (size r i : nat) :
  (i < size)%nat →
  linked_upto n size r !! i
  = Some (if (i <? r)%nat then
            Libp2p.addressBook_set (n i) (Libp2p.peerId (n (i + 1)))
              (Libp2p.multiaddrs (n (i + 1)))
          else n i).
Proof.
  intros Hi. unfold linked_upto.
  change (map ?f ?l) with (f <$> l).
  rewrite list_lookup_fmap, lookup_seq_lt by assumption. reflexivity.
Qed.

Lemma linked_upto_zero size : linked_upto n size 0 = map n (seq 0 size).
Proof. reflexivity. Qed.

(** One round of the second loop links member [r] to its successor. *)
Lemma link_round (size r : nat) :
  (r + 1 < size)%nat →
  <[r := Libp2p.addressBook_set (n r) (Libp2p.peerId (n (r + 1)))
           (Libp2p.multiaddrs (n (r + 1)))]> (linked_upto n size r)
  = linked_upto n size (S r).
Proof.
  intros Hr. apply list_eq. intros i.
  destruct (Nat.lt_ge_cases i size) as [Hi | Hi].
  - rewrite (linked_upto_lookup size (S r) i Hi).
    destruct (Nat.eq_dec r i) as [<- | Hne].
    + rewrite list_lookup_insert_eq by (rewrite linked_upto_length; lia).
      now rewrite (proj2 (Nat.ltb_lt r (S r))) by lia.
    + rewrite list_lookup_insert_ne by assumption.
      rewrite (linked_upto_lookup size r i Hi).
      destruct (Nat.ltb_spec i r), (Nat.ltb_spec i (S r)); try reflexivity; lia.
  - rewrite !lookup_ge_None_2; [reflexivity | |].
    + rewrite linked_upto_length. lia.
    + rewrite length_insert, linked_upto_length. lia.
Qed.

Lemma link_loop (size k r : nat) :
  (r + k + 1 ≤ size)%nat →
  for_loop k r
    (fun index nodes =>
       this ← at_ nodes index;
       next ← at_ nodes (index + 1);
       Ok (<[index := Libp2p.addressBook_set this (Libp2p.peerId next)
                        (Libp2p.multiaddrs next)]> nodes))
    (linked_upto n size r)
  = Ok (linked_upto n size (r + k)).
Proof.
  revert r. induction k as [|k IH]; intros r Hr; cbn [for_loop].
  - now rewrite Nat.add_0_r.
  - rewrite (at_lookup _ _ _ (linked_upto_lookup size r r ltac:(lia))).
    rewrite (at_lookup _ _ _ (linked_upto_lookup size r (r + 1) ltac:(lia))).
    rewrite Nat.ltb_irrefl.
    rewrite (proj2 (Nat.ltb_ge (r + 1) r)) by lia.
    cbn [mbind Result_bind].
    rewrite link_round by lia.
    rewrite IH by lia. f_equal. f_equal. lia.
Qed.

Lemma link_nodes_started size :
  link_nodes (map n (seq 0 size)) = Ok (linked_upto n size (size - 1)).
Proof.
  unfold link_nodes. rewrite length_map, length_seq.
  replace (Z.to_nat (Z.of_nat size - 1)) with (size - 1) by lia.
  rewrite <- linked_upto_zero.
  destruct size as [|size]; [reflexivity|].
  rewrite link_loop by lia. reflexivity.
Qed.

(** C8: when the forty [createNode()] calls resolve, the harness holds
    exactly forty nodes, in the order started; node [i], for [i] from 0
    to 38, differs from the node started only by the address-book entry
    of node [i + 1], and the last node is as it was started. *)
Theorem main_linked_roster_chain :
  (∀ k, k < 40 → createNode k = Ok (n k)) →
  ∃ nodes,
    main_linked_roster createNode = Ok nodes ∧
    length nodes = 40 ∧
    (∀ i, i < 39 →
       nodes !! i
       = Some (Libp2p.addressBook_set (n i) (Libp2p.peerId (n (i + 1)))
                 (Libp2p.multiaddrs (n (i + 1))))) ∧
    nodes !! 39 = Some (n 39).
Proof.
  intros Hres. exists (linked_upto n 40 39). split; [|split; [|split]].
  - unfold main_linked_roster. rewrite (start_nodes_resolved Hres).
    exact (link_nodes_started 40).
  - apply linked_upto_length.
  - intros i Hi. rewrite linked_upto_lookup by lia.
    now rewrite (proj2 (Nat.ltb_lt i 39)) by lia.
  - now rewrite linked_upto_lookup by lia.
Qed.

End Harness.

(** What a seeded entry means for the address book of a node. *)
Lemma addressBook_set_lookup node p addrs key :
  PeerStore.addressBook (Libp2p.peerStore (Libp2p.addressBook_set node p addrs)) !! key
  = if decide (PeerId.toB58String p = key) then Some addrs
    else PeerStore.addressBook (Libp2p.peerStore node) !! key.
Proof. simpl. unfold AddressBook.set. apply lookup_insert. Qed.

Lemma main_linked_roster_chain_witness :
  ∃ nodes,
    main_linked_roster (fun k => Ok (Fixture.started k)) = Ok nodes ∧
    length nodes = 40 ∧
    (∀ i, i < 39 →
       nodes !! i
       = Some (Libp2p.addressBook_set (Fixture.started i)
                 (Libp2p.peerId (Fixture.started (i + 1)))
                 (Libp2p.multiaddrs (Fixture.started (i + 1))))) ∧
    nodes !! 39 = Some (Fixture.started 39).
Proof.
  apply (main_linked_roster_chain (fun k => Ok (Fixture.started k)) Fixture.started).
  intros k Hk. reflexivity.
Defined.

(** ** Positional notation *)

Section Digits.
Import Bytes.
Local Open Scope N_scope.
Variable base : N.
Hypothesis base_ge_2 : 2 <= base.

Lemma value_snoc ds d : value base (ds ++ [d]) = value base ds * base + d.
Proof. unfold value. now rewrite fold_left_app. Qed.

Lemma digits_fuel_acc fuel n acc :
  digits_fuel fuel base n acc = digits_fuel fuel base n [] ++ acc.
Proof.
  revert n acc. induction fuel as [|fuel IH]; intros n acc; simpl; [reflexivity|].
  destruct (n =? 0); [reflexivity|].
  rewrite (IH _ (_ :: acc)), (IH _ [_]). now rewrite <- app_assoc.
Qed.

Lemma digits_fuel_step fuel n :
  n ≠ 0 →
  digits_fuel (S fuel) base n []
  = digits_fuel fuel base (n / base) [] ++ [n mod base].
Proof.
  intros Hn. simpl. rewrite (proj2 (N.eqb_neq n 0) Hn). apply digits_fuel_acc.
Qed.

Lemma digits_fuel_zero fuel : digits_fuel fuel base 0 [] = [].
Proof. destruct fuel; reflexivity. Qed.

Lemma div_base_lt fuel n :
  n < 2 ^ N.of_nat (S fuel) → n / base < 2 ^ N.of_nat fuel.
Proof.
  intros Hn. apply N.Div0.div_lt_upper_bound.
  rewrite Nat2N.inj_succ, N.pow_succ_r' in Hn. nia.
Qed.

Lemma digits_fuel_value fuel n :
  n < 2 ^ N.of_nat fuel → value base (digits_fuel fuel base n []) = n.
Proof.
  revert n. induction fuel as [|fuel IH]; intros n Hn.
  - simpl in *. unfold value. simpl. lia.
  - destruct (N.eq_dec n 0) as [-> | Hne]; [now rewrite digits_fuel_zero|].
    rewrite digits_fuel_step by assumption.
    rewrite value_snoc, IH by now apply div_base_lt.
    rewrite (N.div_mod' n base) at 3. lia.
Qed.

Lemma digits_fuel_canonical fuel n :
  n < 2 ^ N.of_nat fuel → canonical base (digits_fuel fuel base n []).
Proof.
  revert n. induction fuel as [|fuel IH]; intros n Hn.
  - split; [constructor | discriminate].
  - destruct (N.eq_dec n 0) as [-> | Hne].
    { rewrite digits_fuel_zero. split; [constructor | discriminate]. }
    rewrite digits_fuel_step by assumption.
    pose proof (div_base_lt _ _ Hn) as Hdiv.
    destruct (IH _ Hdiv) as [Hall Hhead]. split.
    + apply Forall_app. split; [assumption|].
      constructor; [|constructor]. apply N.mod_lt. lia.
    + destruct (digits_fuel fuel base (n / base) []) as [|d ds] eqn:Hds; simpl.
      * pose proof (digits_fuel_value _ _ Hdiv) as Hv.
        rewrite Hds in Hv. unfold value in Hv. simpl in Hv.
        intros [= Hmod].
        rewrite (N.div_mod' n base), <- Hv, Hmod in Hne. lia.
      * exact Hhead.
Qed.

Lemma canonical_snoc ds d :
  canonical base (ds ++ [d]) → canonical base ds ∧ d < base ∧ value base (ds ++ [d]) ≠ 0.
Proof.
  intros [Hall Hhead]. apply Forall_app in Hall as [Hds Hd].
  apply Forall_inv in Hd.
  assert (canonical base ds) as Hcan.
  { split; [assumption|]. destruct ds; [discriminate | exact Hhead]. }
  split; [exact Hcan|]. split; [exact Hd|].
  rewrite value_snoc. destruct ds as [|d0 ds].
  - simpl in Hhead. unfold value. simpl. intros Hzero. apply Hhead. f_equal. lia.
  - assert (value base (d0 :: ds) ≠ 0) as Hpos; [|nia].
    simpl in Hhead.
    assert (d0 ≠ 0) as Hd0 by (intros ->; now apply Hhead).
    unfold value. simpl.
    assert (∀ l acc, acc ≠ 0 →
              fold_left (fun a x => a * base + x) l acc ≠ 0) as Hfold.
    { induction l as [|x l IHl]; intros acc Hacc; simpl; [assumption|].
      apply IHl. nia. }
    apply Hfold. lia.
Qed.

Lemma digits_fuel_of_value ds :
  canonical base ds → ∀ fuel, value base ds < 2 ^ N.of_nat fuel →
  digits_fuel fuel base (value base ds) [] = ds.
Proof.
  induction ds as [|d ds IH] using rev_ind; intros Hcan fuel Hfuel.
  - apply digits_fuel_zero.
  - destruct (canonical_snoc _ _ Hcan) as (Hds & Hd & Hne).
    destruct fuel as [|fuel]; [simpl in Hfuel; lia|].
    rewrite digits_fuel_step by assumption.
    rewrite value_snoc in *.
    assert ((value base ds * base + d) / base = value base ds) as Hdiv.
    { rewrite N.div_add_l by lia. rewrite (N.div_small d) by assumption. lia. }
    assert ((value base ds * base + d) mod base = d) as Hmod.
    { rewrite N.add_comm, N.Div0.mod_add. now apply N.mod_small. }
    rewrite Hdiv, Hmod. f_equal. apply IH; [assumption|].
    rewrite <- Hdiv. now apply div_base_lt.
Qed.

Lemma size_fuel n : n < 2 ^ N.of_nat (N.to_nat (N.size n)).
Proof. rewrite N2Nat.id. apply N.size_gt. Qed.

(** The digits of a number denote it. *)
Lemma value_digits n : value base (digits base n) = n.
Proof. apply digits_fuel_value, size_fuel. Qed.

Lemma digits_canonical n : canonical base (digits base n).
Proof. apply digits_fuel_canonical, size_fuel. Qed.

(** A canonical digit string is the digits of the number it denotes. *)
Lemma digits_value ds : canonical base ds → digits base (value base ds) = ds.
Proof. intros Hcan. apply digits_fuel_of_value; [assumption | apply size_fuel]. Qed.

Lemma value_app ds1 ds2 :
  value base (ds1 ++ ds2)
  = value base ds1 * base ^ N.of_nat (length ds2) + value base ds2.
Proof.
  induction ds2 as [|d ds2 IH] using rev_ind.
  - rewrite app_nil_r. unfold value at 3. simpl. lia.
  - rewrite app_assoc, !value_snoc, IH, length_app. simpl.
    rewrite Nat.add_1_r, Nat2N.inj_succ, N.pow_succ_r'. lia.
Qed.

Lemma value_lt_pow ds :
  Forall (fun d => d < base) ds → value base ds < base ^ N.of_nat (length ds).
Proof.
  induction ds as [|d ds IH] using rev_ind; intros Hall.
  - unfold value. simpl. lia.
  - apply Forall_app in Hall as [Hds Hd]. apply Forall_inv in Hd.
    specialize (IH Hds).
    rewrite value_snoc, length_app. simpl.
    rewrite Nat.add_1_r, Nat2N.inj_succ, N.pow_succ_r'. nia.
Qed.

End Digits.

(** ** Bytes and Base58 text *)

Section Base58Facts.
Import Bytes Base58.
Local Open Scope N_scope.

Lemma to_N_lt (b : byte) : Byte.to_N b < 256.
Proof. pose proof (Byte.to_N_bounded b). lia. Qed.

Lemma of_N_to_N (b : byte) : Bytes.of_N (Byte.to_N b) = b.
Proof.
  unfold Bytes.of_N. rewrite N.mod_small by apply to_N_lt.
  now rewrite Byte.of_to_N.
Qed.

Lemma to_N_zero (b : byte) : Byte.to_N b = 0 → b = x00.
Proof. intros H. rewrite <- (of_N_to_N b), H. reflexivity. Qed.

Lemma map_of_N_to_N (bs : list byte) : map Bytes.of_N (map Byte.to_N bs) = bs.
Proof.
  induction bs as [|b bs IH]; simpl; [reflexivity|].
  now rewrite of_N_to_N, IH.
Qed.

(** A list is its leading run of [x] followed by the rest. *)
Lemma leading_split {A} (eqb : A → A → bool) (x : A) (l : list A) :
  (∀ y, eqb y x = true → y = x) →
  l = repeat x (leading eqb x l) ++ drop (leading eqb x l) l.
Proof.
  intros Heqb. induction l as [|y l IH]; simpl; [reflexivity|].
  destruct (eqb y x) eqn:E; simpl; [|reflexivity].
  rewrite (Heqb y E) at 1. now rewrite <- IH.
Qed.

Lemma leading_head {A} (eqb : A → A → bool) (x : A) (l : list A) :
  (∀ y, y = x → eqb y x = true) →
  head (drop (leading eqb x l) l) ≠ Some x.
Proof.
  intros Heqb. induction l as [|y l IH]; simpl; [discriminate|].
  destruct (eqb y x) eqn:E; simpl; [exact IH|].
  intros [= ->]. rewrite Heqb in E by reflexivity. discriminate.
Qed.

Lemma leading_repeat {A} (eqb : A → A → bool) (x : A) (k : nat) (l : list A) :
  (∀ y, y = x → eqb y x = true) →
  (∀ y, eqb y x = true → y = x) →
  head l ≠ Some x →
  leading eqb x (repeat x k ++ l) = k ∧ drop k (repeat x k ++ l) = l.
Proof.
  intros Hlb Hbl Hhead. induction k as [|k [IH1 IH2]]; simpl.
  - split; [|reflexivity]. destruct l as [|y l]; simpl; [reflexivity|].
    destruct (eqb y x) eqn:E; [|reflexivity].
    exfalso. apply Hhead. simpl. f_equal. now apply Hbl.
  - rewrite Hlb by reflexivity. now rewrite IH1, IH2.
Qed.

Lemma char_digit_digit_char d : d < 58 → char_digit (digit_char d) = Some d.
Proof.
  intros Hd.
  assert (forallb (fun k => match char_digit (digit_char (N.of_nat k)) with
                            | Some d' => d' =? N.of_nat k
                            | None => false
                            end) (seq 0 58) = true) as Hall
    by (vm_compute; reflexivity).
  rewrite forallb_forall in Hall.
  specialize (Hall (N.to_nat d)). rewrite N2Nat.id in Hall.
  destruct (char_digit (digit_char d)) as [d'|].
  - f_equal. apply N.eqb_eq, Hall, in_seq. lia.
  - discriminate Hall. apply in_seq. lia.
Qed.

Lemma char_digits_digit_chars ds :
  Forall (fun d => d < 58) ds → char_digits (map digit_char ds) = Some ds.
Proof.
  induction 1 as [|d ds Hd _ IH]; simpl; [reflexivity|].
  now rewrite char_digit_digit_char, IH.
Qed.

Lemma canonical_bytes (bs : list byte) :
  head bs ≠ Some x00 → canonical 256 (map Byte.to_N bs).
Proof.
  intros Hhead. split.
  - clear Hhead. induction bs as [|b bs IH]; simpl; constructor;
      [apply to_N_lt | exact IH].
  - destruct bs as [|b bs]; simpl; [discriminate|].
    intros [= Hb]. apply Hhead. simpl. f_equal. now apply to_N_zero.
Qed.

(** Decoding the Base58 text of a byte string gives the byte string back. *)
Theorem decode_encode (bytes : list byte) : decode (encode bytes) = Ok bytes.
Proof.
  unfold decode, encode.
  set (zeros := leading Byte.eqb x00 bytes).
  set (rest := drop zeros bytes).
  set (ds := digits 58 (be_value rest)).
  rewrite list_ascii_of_string_of_list_ascii.
  destruct (digits_canonical 58 ltac:(lia) (be_value rest)) as [Hall Hhead].
  fold ds in Hall, Hhead.
  assert (char_digits (repeat "1"%char zeros ++ map digit_char ds)
          = Some (repeat 0 zeros ++ ds)) as ->.
  { change "1"%char with (digit_char 0).
    rewrite <- map_repeat, <- map_app. apply char_digits_digit_chars.
    apply Forall_app. split; [|assumption].
    clear. induction zeros as [|k IH]; simpl; constructor; [lia | exact IH]. }
  destruct (leading_repeat N.eqb 0 zeros ds) as [-> ->];
    [intros y ->; apply N.eqb_refl | intros y; apply N.eqb_eq | assumption |].
  unfold ds. rewrite value_digits by lia.
  unfold be_value. rewrite digits_value; [| lia |].
  - rewrite map_of_N_to_N. f_equal. symmetry.
    apply leading_split. intros y. apply Byte.byte_dec_bl.
  - apply canonical_bytes. apply leading_head. intros y ->. reflexivity.
Qed.

(** The two leading base-58 digits of a number between [1378 * 58^44]
    and [1379 * 58^44] are 23 and 44. *)
Lemma digits_58_leading n :
  1378 * 58 ^ 44 <= n < 1379 * 58 ^ 44 → ∃ tl, digits 58 n = 23 :: 44 :: tl.
Proof.
  intros [Hlo Hhi].
  pose proof (value_digits 58 ltac:(lia) n) as Hval.
  destruct (digits_canonical 58 ltac:(lia) n) as [Hall Hhead].
  assert (58 ^ 44 ≠ 0) as Hpos by (apply N.pow_nonzero; lia).
  destruct (digits 58 n) as [|d0 [|d1 tl]].
  - unfold value in Hval. simpl in Hval. lia.
  - apply Forall_inv in Hall. unfold value in Hval. simpl in Hval. nia.
  - exists tl.
    pose proof (Forall_inv Hall) as Hd0.
    pose proof (Forall_inv (Forall_inv_tail Hall)) as Hd1.
    pose proof (value_lt_pow 58 ltac:(lia) tl
                  (Forall_inv_tail (Forall_inv_tail Hall))) as Htl.
    cbv beta in Hd0, Hd1.
    assert (d0 ≠ 0) as Hd0' by (intros ->; now apply Hhead).
    change (d0 :: d1 :: tl) with ([d0; d1] ++ tl) in Hval.
    rewrite value_app in Hval by lia.
    change (value 58 [d0; d1]) with ((0 * 58 + d0) * 58 + d1) in Hval.
    set (k := N.of_nat (length tl)) in *.
    assert (k = 44) as Hk.
    { destruct (N.lt_trichotomy k 44) as [Hlt | [Heq | Hgt]]; [|assumption|].
      - exfalso.
        assert (58 ^ k <= 58 ^ 43) as Hle by (apply N.pow_le_mono_r; lia).
        assert (58 ^ 44 = 58 * 58 ^ 43) as Hs
          by (now rewrite <- N.pow_succ_r').
        nia.
      - exfalso.
        assert (58 ^ 45 <= 58 ^ k) as Hle by (apply N.pow_le_mono_r; lia).
        assert (58 ^ 45 = 58 * 58 ^ 44) as Hs
          by (now rewrite <- N.pow_succ_r').
        nia. }
    rewrite Hk in *. clear Hk k.
    remember (58 ^ 44) as P eqn:HP. clear HP.
    assert (d0 * 58 + d1 = 1378) as Hm by nia.
    assert (d0 = 23) as -> by lia. assert (d1 = 44) as -> by lia.
    reflexivity.
Qed.

(** The Base58 text of a SHA-256 multihash begins with [Qm]. *)
Lemma encode_sha2_256_Qm (digest : list byte) :
  length digest = 32%nat →
  ∃ rest, encode (x12 :: x20 :: digest) = String "Q" (String "m" rest).
Proof.
  intros Hlen. unfold encode.
  change (leading Byte.eqb x00 (x12 :: x20 :: digest)) with 0%nat.
  cbn [drop repeat app].
  destruct (digits_58_leading (be_value (x12 :: x20 :: digest))) as [tl ->].
  - unfold be_value.
    change (map Byte.to_N (x12 :: x20 :: digest))
      with ([18; 32] ++ map Byte.to_N digest).
    rewrite value_app by lia. rewrite length_map, Hlen.
    change (value 256 [18; 32]) with 4640.
    assert (value 256 (map Byte.to_N digest) < 256 ^ N.of_nat 32) as Hlt.
    { rewrite <- Hlen, <- (length_map Byte.to_N).
      apply value_lt_pow; [lia|]. clear. induction digest; simpl; constructor;
        [apply to_N_lt | assumption]. }
    assert (1378 * 58 ^ 44 <= 4640 * 256 ^ N.of_nat 32) as Hlo
      by (apply N.leb_le; vm_compute; reflexivity).
    assert (4641 * 256 ^ N.of_nat 32 <= 1379 * 58 ^ 44) as Hhi
      by (apply N.leb_le; vm_compute; reflexivity).
    remember (256 ^ N.of_nat 32) as B. remember (58 ^ 44) as P.
    lia.
  - eexists. reflexivity.
Qed.

Corollary encode_inj (b1 b2 : list byte) : encode b1 = encode b2 → b1 = b2.
Proof.
  intros H. apply (f_equal decode) in H. rewrite !decode_encode in H.
  now injection H.
Qed.

End Base58Facts.

(** ** Content identifiers *)

Section ContentIdentifier.

Lemma be_bytes_length k n : length (Bytes.be_bytes k n) = k.
Proof. induction k as [|k IH]; simpl; [reflexivity | now rewrite IH]. Qed.

(** A SHA-256 digest has thirty-two bytes. *)
Lemma sha256_length msg : length (SHA256.sha256 msg) = 32.
Proof.
  unfold SHA256.sha256, SHA256.output.
  now rewrite !length_app, !be_bytes_length.
Qed.

Lemma encode_sha2_256 digest :
  length digest = 32 →
  multihash.encode digest "sha2-256" = Ok (x12 :: x20 :: digest).
Proof.
  intros Hlen. unfold multihash.encode. rewrite Hlen. reflexivity.
Qed.

Lemma validate_sha2_256 digest :
  length digest = 32 →
  multihash.validate (x12 :: x20 :: digest) = Ok tt.
Proof.
  intros Hlen. unfold multihash.validate, multihash.decode.
  cbn [length Nat.ltb Nat.leb].
  change (multihash.varint_decode (x12 :: x20 :: digest))
    with (Some (18%N, x20 :: digest)).
  cbn iota beta.
  change (multihash.isValidCode 18) with true.
  change (multihash.varint_decode (x20 :: digest)) with (Some (32%N, digest)).
  cbn iota beta.
  rewrite Hlen. reflexivity.
Qed.

(** The constructor accepts the Base58 text of a SHA-256 multihash and
    wraps that multihash. *)
Lemma new_CID_sha2_256 digest :
  length digest = 32 →
  CID.new_ (multihash.toB58String (x12 :: x20 :: digest))
  = Ok {| CID.version := 0; CID.codec := "dag-pb";
          CID.multihash := x12 :: x20 :: digest;
          CID.multibaseName := "base58btc" |}.
Proof.
  intros Hlen. unfold CID.new_, multihash.fromB58String, multihash.toB58String.
  rewrite decode_encode. cbn [mbind Result_bind].
  unfold CID.validateCID. cbn [CID.version CID.codec CID.multibaseName CID.multihash].
  change ((0 =? 0)%N) with true. cbn [negb orb andb].
  change (String.eqb "dag-pb" "dag-pb") with true.
  change (String.eqb "base58btc" "base58btc") with true.
  cbn [negb orb andb].
  now rewrite validate_sha2_256.
Qed.

(** What a call does, on any heap: it returns the version 0 identifier
    of the SHA-256 digest of the content, and leaves one spent hash
    object behind. *)
Lemma create_CID_run content (heap : Heap) :
  create_CID content heap = (Ok (cidv0_of content), heap ++ [spent_hash content]).
Proof.
  unfold create_CID, Js_bind, crypto.createHash.
  change (String.eqb "sha256" "sha256") with true. cbn iota.
  unfold crypto.update.
  rewrite list_lookup_middle by reflexivity. cbn [Hash.finalized Hash.data Hash.algorithm].
  cbn iota.
  replace (length heap) with (length heap + 0) at 2 by lia.
  rewrite insert_app_r. cbn [insert list_insert].
  unfold crypto.digest.
  rewrite list_lookup_middle by reflexivity. cbn [Hash.finalized Hash.data Hash.algorithm].
  cbn iota.
  replace (length heap) with (length heap + 0) at 1 by lia.
  rewrite insert_app_r. cbn [insert list_insert app].
  unfold Js_lift.
  rewrite encode_sha2_256 by apply sha256_length.
  rewrite new_CID_sha2_256 by apply sha256_length.
  reflexivity.
Qed.

(** C5: a call of [create_CID] returns the same content identifier for
    the same content, whatever hash objects the heap holds when it is
    made -- in particular for a second call after a first one. *)
Theorem create_CID_deterministic (content : string) (heap1 heap2 : Heap) :
  ∃ cid,
    fst (create_CID content heap1) = Ok cid ∧
    fst (create_CID content heap2) = Ok cid ∧
    fst (create_CID content (snd (create_CID content heap1))) = Ok cid.
Proof.
  exists (cidv0_of content). rewrite !create_CID_run. simpl. auto.
Qed.

Lemma cidv0_of_inj c1 c2 :
  cidv0_of c1 = cidv0_of c2 →
  SHA256.sha256 (list_byte_of_string c1) = SHA256.sha256 (list_byte_of_string c2).
Proof.
  intros H. apply (f_equal CID.multihash) in H. unfold cidv0_of in H.
  cbn [CID.multihash] in H. congruence.
Qed.

(** C6: contents that differ, with SHA-256 digests that differ, get
    different content identifiers, also in their Base58 text. *)
Theorem create_CID_distinct (c1 c2 : string) (heap1 heap2 : Heap) :
  c1 ≠ c2 →
  SHA256.sha256 (list_byte_of_string c1) ≠ SHA256.sha256 (list_byte_of_string c2) →
  ∃ cid1 cid2,
    fst (create_CID c1 heap1) = Ok cid1 ∧
    fst (create_CID c2 heap2) = Ok cid2 ∧
    cid1 ≠ cid2 ∧
    CID.toBaseEncodedString cid1 ≠ CID.toBaseEncodedString cid2.
Proof.
  intros _ Hdigest. exists (cidv0_of c1), (cidv0_of c2).
  rewrite !create_CID_run. repeat split.
  - intros Heq. apply Hdigest. now apply cidv0_of_inj.
  - unfold CID.toBaseEncodedString, multihash.toB58String. intros Heq.
    apply encode_inj in Heq. apply Hdigest.
    unfold cidv0_of in Heq. cbn [CID.multihash] in Heq. congruence.
Qed.

Lemma create_CID_distinct_witness :
  ∃ cid1 cid2,
    fst (create_CID "hello world!" []) = Ok cid1 ∧
    fst (create_CID "hello world?" []) = Ok cid2 ∧
    cid1 ≠ cid2 ∧
    CID.toBaseEncodedString cid1 ≠ CID.toBaseEncodedString cid2.
Proof.
  apply (create_CID_distinct "hello world!" "hello world?" [] []).
  - discriminate.
  - intros Heq. vm_compute in Heq. discriminate Heq.
Defined.

(** The text [create_CID] hands to the constructor begins with [Qm]. *)
Lemma create_CID_text_Qm content :
  ∃ rest,
    multihash.toB58String
      (x12 :: x20 :: SHA256.sha256 (list_byte_of_string content))
    = String "Q" (String "m" rest).
Proof. apply encode_sha2_256_Qm, sha256_length. Qed.

(** The test payload of the harness and its pinned identifier. *)
Example create_CID_hello_world :
  ∃ cid,
    fst (create_CID "hello world!" []) = Ok cid ∧
    CID.toBaseEncodedString cid = "QmWDXASJ7wW316RRQi57fSXTscfnZ7vN2mJXVkXE8t5m5a".
Proof.
  exists (cidv0_of "hello world!"). rewrite create_CID_run.
  split; [reflexivity | vm_compute; reflexivity].
Qed.

End ContentIdentifier.

(** ** XOR distance *)

Section Distance.
Import xor_distance.

Lemma byte_xor_comm a b : byte_xor a b = byte_xor b a.
Proof. unfold byte_xor. now rewrite N.lxor_comm. Qed.

Lemma byte_xor_self a : byte_xor a a = x00.
Proof. unfold byte_xor. now rewrite N.lxor_nilpotent. Qed.

Lemma zip_xor_comm (a b : list byte) :
  zip_with byte_xor a b = zip_with byte_xor b a.
Proof.
  revert b. induction a as [|x a IH]; intros [|y b]; simpl; try reflexivity.
  now rewrite byte_xor_comm, IH.
Qed.

Lemma zip_xor_self (a : list byte) :
  zip_with byte_xor a a = repeat x00 (length a).
Proof.
  induction a as [|x a IH]; simpl; [reflexivity|].
  now rewrite byte_xor_self, IH.
Qed.

Lemma zip_xor_length (a b : list byte) :
  length a = length b → length (zip_with byte_xor a b) = length a.
Proof.
  revert b. induction a as [|x a IH]; intros [|y b] Hlen; simpl in *;
    try reflexivity; try discriminate.
  f_equal. apply IH. now injection Hlen.
Qed.

Lemma magnitude_zero k : magnitude (repeat x00 k) = 0%N.
Proof.
  unfold magnitude, Bytes.be_value, Bytes.value.
  induction k as [|k IH]; simpl; [reflexivity | exact IH].
Qed.

(** C7: on keyspace points of equal length the distance is symmetric
    and defined, and the distance of a point to itself is the all-zero
    string, the integer zero. *)
Theorem distance_symmetric_identity (a b : list byte) :
  length a = length b →
  distance a b = distance b a ∧
  (∃ d, distance a b = Ok d ∧ length d = length a) ∧
  distance a a = Ok (repeat x00 (length a)) ∧
  magnitude (repeat x00 (length a)) = 0%N.
Proof.
  intros Hlen. unfold distance. rewrite <- Hlen, Nat.eqb_refl. simpl.
  repeat split.
  - now rewrite zip_xor_comm.
  - eexists. split; [reflexivity | now apply zip_xor_length].
  - now rewrite zip_xor_self.
  - apply magnitude_zero.
Qed.

Lemma distance_symmetric_identity_witness :
  distance [x01; x02] [x03; xff] = distance [x03; xff] [x01; x02] ∧
  (∃ d, distance [x01; x02] [x03; xff] = Ok d ∧ length d = 2) ∧
  distance [x01; x02] [x01; x02] = Ok [x00; x00] ∧
  magnitude [x00; x00] = 0%N.
Proof.
  apply (distance_symmetric_identity [x01; x02] [x03; xff]). reflexivity.
Defined.

(** Points of different lengths have no distance. *)
Lemma distance_length_mismatch (a b : list byte) :
  length a ≠ length b → is_Throw (distance a b).
Proof.
  intros Hlen. unfold distance.
  rewrite (proj2 (Nat.eqb_neq _ _) Hlen). eexists. reflexivity.
Qed.

End Distance.

(** * Further properties of [index.js] *)

(** ** Keys accepted by [parseProviderKey] *)

Section ProviderKeyShape.
Import JsString.

(** No segment of a split holds the separator. *)
Lemma split_segments_no_sep sep s :
  Forall (fun seg => occurrences sep seg = 0) (split sep s).
Proof.
  induction s as [|c s IH]; simpl.
  - constructor; [reflexivity | constructor].
  - destruct (Ascii.eqb c sep) eqn:E.
    + constructor; [reflexivity | exact IH].
    + destruct (split sep s) as [|seg segs]; simpl.
      * constructor; [simpl; now rewrite E | constructor].
      * constructor; [|exact (Forall_inv_tail IH)].
        simpl. rewrite E. exact (Forall_inv IH).
Qed.

Lemma append_assoc (a b c : string) : (a +:+ b) +:+ c = a +:+ (b +:+ c).
Proof.
  induction a as [|x a IH]; [reflexivity|].
  change (String x ((a +:+ b) +:+ c) = String x (a +:+ (b +:+ c))).
  now rewrite IH.
Qed.

Lemma join_cons sep c segs seg :
  fold_left (fun acc x => acc +:+ String sep x) segs (String c seg)
  = String c (fold_left (fun acc x => acc +:+ String sep x) segs seg).
Proof.
  revert seg. induction segs as [|x segs IH]; intros seg; simpl; [reflexivity|].
  apply IH.
Qed.

(** Joining the segments with the separator gives the string back. *)
Lemma split_join sep s seg segs :
  split sep s = seg :: segs →
  s = fold_left (fun acc x => acc +:+ String sep x) segs seg.
Proof.
  revert seg segs. induction s as [|c s IH]; intros seg segs; simpl.
  - now intros [= <- <-].
  - destruct (split sep s) as [|seg' segs'] eqn:E;
      [now destruct (split_nonempty sep s)|].
    specialize (IH seg' segs' eq_refl).
    destruct (Ascii.eqb_spec c sep) as [-> | Hne]; intros [= <- <-].
    + simpl. change ("" +:+ String sep seg') with (String sep seg').
      rewrite join_cons. now f_equal.
    + rewrite join_cons. now f_equal.
Qed.

Lemma parseProviderKey_Ok_iff key :
  (∃ entry, parseProviderKey key = Ok entry) ↔ length (split "/" key) = 4.
Proof.
  split.
  - intros [entry Hok].
    destruct (Nat.eq_dec (length (split "/" key)) 4) as [Heq | Hne]; [exact Heq|].
    rewrite (parseProviderKey_other key Hne) in Hok. discriminate Hok.
  - intros Hlen. destruct (length_four _ Hlen) as (s0 & s1 & s2 & s3 & Hparts).
    eexists. exact (parseProviderKey_four key s0 s1 s2 s3 Hparts).
Qed.

(** X1: [parseProviderKey] accepts a key exactly when the key holds
    three slashes. *)
Theorem parseProviderKey_accepts_iff_three_slashes (key : string) :
  (∃ entry, parseProviderKey key = Ok entry) ↔ occurrences "/" key = 3.
Proof. rewrite parseProviderKey_Ok_iff, split_length. lia. Qed.

(** X2: an accepted key is its four segments joined by slashes, the
    last two being the fields returned, and no segment holds a slash. *)
Theorem parseProviderKey_key_shape (key : string) (entry : ProviderEntry) :
  parseProviderKey key = Ok entry →
  ∃ s0 s1,
    key = s0 +:+ "/" +:+ s1 +:+ "/" +:+ cid entry +:+ "/" +:+ peerId entry ∧
    occurrences "/" s0 = 0 ∧ occurrences "/" s1 = 0 ∧
    occurrences "/" (cid entry) = 0 ∧ occurrences "/" (peerId entry) = 0.
Proof.
  intros Hparse.
  assert (length (split "/" key) = 4) as Hlen.
  { apply parseProviderKey_Ok_iff. eauto. }
  destruct (length_four _ Hlen) as (s0 & s1 & s2 & s3 & Hparts).
  rewrite (parseProviderKey_four _ _ _ _ _ Hparts) in Hparse.
  injection Hparse as <-. simpl.
  pose proof (split_segments_no_sep "/" key) as Hfree. rewrite Hparts in Hfree.
  exists s0, s1. split.
  - rewrite (split_join "/" key s0 [s1; s2; s3] Hparts) at 1. simpl.
    now rewrite !append_assoc.
  - repeat (apply Forall_cons_1 in Hfree as [? Hfree]). auto.
Qed.

Lemma parseProviderKey_key_shape_witness :
  ∃ s0 s1,
    "/providers/QmContent/CIQPEER"
    = s0 +:+ "/" +:+ s1 +:+ "/" +:+ "QmContent" +:+ "/" +:+ "CIQPEER" ∧
    occurrences "/" s0 = 0 ∧ occurrences "/" s1 = 0 ∧
    occurrences "/" "QmContent" = 0 ∧ occurrences "/" "CIQPEER" = 0.
Proof.
  apply (parseProviderKey_key_shape "/providers/QmContent/CIQPEER"
           {| cid := "QmContent"; peerId := "CIQPEER" |}).
  reflexivity.
Defined.

End ProviderKeyShape.

(** ** Failure and range of [sort_closest_nodes_dht] *)

Section ClosestPeersEdges.
Import JsArray.

Lemma for_await_sorted_any peers sorted_peers closest_peers :
  for_await_sorted peers sorted_peers closest_peers
  = match rejection sorted_peers with
    | Some e => Throw e
    | None =>
        Ok (closest_peers ++ map (roster_position peers) (yielded sorted_peers))
    end.
Proof.
  revert closest_peers.
  induction sorted_peers as [|sorted rest IH|e]; intros closest_peers; simpl.
  - now rewrite app_nil_r.
  - rewrite IH. destruct (rejection rest); [reflexivity|].
    unfold push. now rewrite <- app_assoc.
  - reflexivity.
Qed.

Lemma sort_closest_nodes_dht_any first rest query :
  sort_closest_nodes_dht (first :: rest) query
  = match rejection (KadDHT.getClosestPeers (Libp2p._dht first)
                       (uint8ArrayFromString query)) with
    | Some e => Throw e
    | None =>
        Ok (map (roster_position (first :: rest))
              (yielded (KadDHT.getClosestPeers (Libp2p._dht first)
                          (uint8ArrayFromString query))))
    end.
Proof.
  unfold sort_closest_nodes_dht. simpl. apply for_await_sorted_any.
Qed.

(** X3: the evaluator fails exactly when the roster is empty or the
    capability of the first node rejects; the rejection is passed on as
    it is, whatever was yielded before it. *)
Theorem sort_closest_nodes_dht_failure (peers : list Libp2p.t) (query : string) :
  (is_Throw (sort_closest_nodes_dht peers query) ↔
     peers = [] ∨
     ∃ first e,
       peers !! 0 = Some first ∧
       rejection (KadDHT.getClosestPeers (Libp2p._dht first)
                    (uint8ArrayFromString query)) = Some e) ∧
  (∀ first e,
     peers !! 0 = Some first →
     rejection (KadDHT.getClosestPeers (Libp2p._dht first)
                  (uint8ArrayFromString query)) = Some e →
     sort_closest_nodes_dht peers query = Throw e).
Proof.
  destruct peers as [|first rest].
  - split.
    + split; [now left | intros _; eexists; reflexivity].
    + intros first e Hfirst. discriminate Hfirst.
  - rewrite sort_closest_nodes_dht_any. split.
    + split.
      * intros [e He]. right. exists first.
        destruct (rejection _) as [e'|]; [|discriminate He].
        now exists e'.
      * intros [Hnil | (first' & e & [= <-] & Hrej)]; [discriminate Hnil|].
        rewrite Hrej. now exists e.
    + intros first' e [= <-] Hrej. now rewrite Hrej.
Qed.

Lemma roster_position_range peers sorted :
  (roster_position peers sorted = -1 ∨
   0 ≤ roster_position peers sorted < Z.of_nat (length peers))%Z.
Proof.
  destruct (Z.eq_dec (roster_position peers sorted) (-1)%Z) as [Heq | Hne];
    [now left | right].
  destruct (roster_position_matched peers sorted Hne) as (j & el & -> & Hel & _).
  apply lookup_lt_Some in Hel. lia.
Qed.

Lemma sort_closest_nodes_dht_Ok peers query closest_peers :
  sort_closest_nodes_dht peers query = Ok closest_peers →
  ∃ sorted_ids, closest_peers = map (roster_position peers) sorted_ids.
Proof.
  destruct peers as [|first rest]; [discriminate|].
  rewrite sort_closest_nodes_dht_any.
  destruct (rejection _); [discriminate|].
  intros [= <-]. eauto.
Qed.

(** X4: every position the evaluator returns is the sentinel [-1] or an
    index into the roster. *)
Theorem sort_closest_nodes_dht_range
    (peers : list Libp2p.t) (query : string) (closest_peers : list Z) (position : Z) :
  sort_closest_nodes_dht peers query = Ok closest_peers →
  position ∈ closest_peers →
  (position = -1 ∨ 0 ≤ position < Z.of_nat (length peers))%Z.
Proof.
  intros Hok Hin.
  destruct (sort_closest_nodes_dht_Ok _ _ _ Hok) as [sorted_ids ->].
  change (map ?f ?l) with (f <$> l) in Hin.
  apply list_elem_of_fmap in Hin as (sorted & -> & _).
  apply roster_position_range.
Qed.

Lemma sort_closest_nodes_dht_range_witness :
  (2 = -1 ∨ 0 ≤ 2 < Z.of_nat (length Fixture.roster))%Z.
Proof.
  apply (sort_closest_nodes_dht_range Fixture.roster "hello world!" [2; -1; 0]%Z 2%Z).
  - reflexivity.
  - apply list_elem_of_here.
Defined.

(** In a roster without repeated Base58 texts, an entry's own identifier
    is found at the entry's index. *)
Lemma roster_position_own peers (j : nat) element sorted :
  NoDup (roster_texts peers) →
  peers !! j = Some element →
  PeerId.toB58String (Libp2p.peerId element) = PeerId._idB58String sorted →
  roster_position peers sorted = Z.of_nat j.
Proof.
  intros Hnodup Hj Htext.
  assert (roster_position peers sorted ≠ (-1)%Z) as Hne.
  { intros Hun. apply roster_position_unmatched in Hun.
    apply (Hun element); [|assumption]. eapply list_elem_of_lookup_2, Hj. }
  destruct (roster_position_matched peers sorted Hne)
    as (k & other & -> & Hk & Hother & _).
  f_equal. apply (NoDup_lookup (roster_texts peers) k j
                    (PeerId._idB58String sorted)); [assumption | |].
  - unfold roster_texts. change (map ?f ?l) with (f <$> l).
    now rewrite list_lookup_fmap, Hk; simpl; rewrite Hother.
  - unfold roster_texts. change (map ?f ?l) with (f <$> l).
    now rewrite list_lookup_fmap, Hj; simpl; rewrite Htext.
Qed.

(** X5: when the Base58 texts of the roster are pairwise different, the
    position returned for a yielded identifier is the index of the one
    roster entry with that text. *)
Theorem sort_closest_nodes_dht_finds_index
    (peers : list Libp2p.t) (first : Libp2p.t) (query : string)
    (sorted_ids : list PeerId.t) (i j : nat) (sorted : PeerId.t)
    (element : Libp2p.t) :
  NoDup (roster_texts peers) →
  peers !! 0 = Some first →
  KadDHT.getClosestPeers (Libp2p._dht first) (uint8ArrayFromString query)
    = yields sorted_ids →
  sorted_ids !! i = Some sorted →
  peers !! j = Some element →
  PeerId.toB58String (Libp2p.peerId element) = PeerId._idB58String sorted →
  ∃ closest_peers,
    sort_closest_nodes_dht peers query = Ok closest_peers ∧
    closest_peers !! i = Some (Z.of_nat j).
Proof.
  intros Hnodup Hfirst Hcap Hi Hj Htext.
  rewrite (sort_closest_nodes_dht_yields peers first query sorted_ids Hfirst Hcap).
  eexists. split; [reflexivity|].
  as_fmap. rewrite list_lookup_fmap, Hi. simpl.
  now rewrite (roster_position_own peers j element sorted).
Qed.

Lemma roster_texts_distinct : NoDup (roster_texts Fixture.roster).
Proof.
  apply NoDup_ListNoDup. repeat constructor; simpl; intuition discriminate.
Qed.

Lemma sort_closest_nodes_dht_finds_index_witness :
  ∃ closest_peers,
    sort_closest_nodes_dht Fixture.roster "hello world!" = Ok closest_peers ∧
    closest_peers !! 0 = Some (Z.of_nat 2).
Proof.
  apply (sort_closest_nodes_dht_finds_index Fixture.roster
           (Fixture.node "QmFirst"
              [Fixture.peer "QmThird"; Fixture.peer "QmStranger"; Fixture.peer "QmFirst"])
           "hello world!"
           [Fixture.peer "QmThird"; Fixture.peer "QmStranger"; Fixture.peer "QmFirst"]
           0 2 (Fixture.peer "QmThird") (Fixture.node "QmThird" []));
    [exact roster_texts_distinct | reflexivity..].
Defined.

(** X6: when several roster entries carry the text of a yielded
    identifier, the position returned is that of the first of them. *)
Theorem sort_closest_nodes_dht_first_match
    (peers : list Libp2p.t) (first : Libp2p.t) (query : string)
    (sorted_ids : list PeerId.t) (i j : nat) (sorted : PeerId.t)
    (element : Libp2p.t) :
  peers !! 0 = Some first →
  KadDHT.getClosestPeers (Libp2p._dht first) (uint8ArrayFromString query)
    = yields sorted_ids →
  sorted_ids !! i = Some sorted →
  peers !! j = Some element →
  PeerId.toB58String (Libp2p.peerId element) = PeerId._idB58String sorted →
  ∃ (closest_peers : list Z) (k : nat),
    sort_closest_nodes_dht peers query = Ok closest_peers ∧
    closest_peers !! i = Some (Z.of_nat k) ∧ (k ≤ j)%nat.
Proof.
  intros Hfirst Hcap Hi Hj Htext.
  rewrite (sort_closest_nodes_dht_yields peers first query sorted_ids Hfirst Hcap).
  assert (roster_position peers sorted ≠ (-1)%Z) as Hne.
  { intros Hun. apply roster_position_unmatched in Hun.
    apply (Hun element); [|assumption]. eapply list_elem_of_lookup_2, Hj. }
  destruct (roster_position_matched peers sorted Hne)
    as (k & other & Hk & _ & _ & Hleast).
  eexists _, k. split; [reflexivity|]. split.
  - as_fmap. rewrite list_lookup_fmap, Hi. simpl. now rewrite Hk.
  - destruct (Nat.le_gt_cases k j) as [Hle | Hgt]; [exact Hle|].
    exfalso. exact (Hleast j element Hgt Hj Htext).
Qed.

End ClosestPeersEdges.

Lemma sort_closest_nodes_dht_first_match_witness :
  ∃ (closest_peers : list Z) (k : nat),
    sort_closest_nodes_dht Scenario.twins "hello world!" = Ok closest_peers ∧
    closest_peers !! 0 = Some (Z.of_nat k) ∧ (k ≤ 1)%nat.
Proof.
  apply (sort_closest_nodes_dht_first_match Scenario.twins
           (Fixture.node "QmTwin" [Fixture.peer "QmTwin"]) "hello world!"
           [Fixture.peer "QmTwin"] 0 1 (Fixture.peer "QmTwin")
           (Fixture.node "QmTwin" []));
    reflexivity.
Defined.

(** ** Format of the identifiers [create_CID] builds *)

Section ContentIdentifierFormat.
Local Open Scope N_scope.

Lemma canonical_value_ge base ds :
  2 <= base → Bytes.canonical base ds → ds ≠ [] →
  base ^ N.of_nat (Nat.pred (length ds)) <= Bytes.value base ds.
Proof.
  intros Hbase [Hall Hhead] Hne. destruct ds as [|d ds]; [contradiction|].
  change (d :: ds) with ([d] ++ ds).
  rewrite value_app by assumption.
  change (Bytes.value base [d]) with (0 * base + d).
  assert (d ≠ 0) as Hd by (intros ->; now apply Hhead).
  simpl Nat.pred. nia.
Qed.

(** A number between [58^45] and [58^46] has forty-six base-58 digits. *)
Lemma digits_58_length n :
  58 ^ 45 <= n < 58 ^ 46 → length (Bytes.digits 58 n) = 46%nat.
Proof.
  intros [Hlo Hhi].
  pose proof (value_digits 58 ltac:(lia) n) as Hval.
  pose proof (digits_canonical 58 ltac:(lia) n) as Hcan.
  pose proof (value_lt_pow 58 ltac:(lia) _ (proj1 Hcan)) as Hlt.
  set (ds := Bytes.digits 58 n) in *.
  assert (ds ≠ []) as Hne.
  { intros Heq. rewrite Heq in Hval. unfold Bytes.value in Hval. simpl in Hval.
    assert (58 ^ 45 ≠ 0) by (apply N.pow_nonzero; lia). lia. }
  pose proof (canonical_value_ge 58 ds ltac:(lia) Hcan Hne) as Hge.
  rewrite Hval in Hlt, Hge.
  destruct (Nat.lt_trichotomy (length ds) 46) as [Hl | [Heq | Hg]]; [|exact Heq|].
  - exfalso.
    assert (58 ^ N.of_nat (length ds) <= 58 ^ 45) by (apply N.pow_le_mono_r; lia).
    lia.
  - exfalso.
    assert (58 ^ 46 <= 58 ^ N.of_nat (Nat.pred (length ds)))
      by (apply N.pow_le_mono_r; lia).
    lia.
Qed.

Lemma string_of_list_ascii_length l :
  String.length (string_of_list_ascii l) = length l.
Proof. induction l as [|c l IH]; simpl; [reflexivity | now rewrite IH]. Qed.

Lemma be_value_sha2_256_bounds (digest : list byte) :
  length digest = 32%nat →
  4640 * 256 ^ 32 <= Bytes.be_value (x12 :: x20 :: digest) < 4641 * 256 ^ 32.
Proof.
  intros Hlen. unfold Bytes.be_value.
  change (map Byte.to_N (x12 :: x20 :: digest))
    with ([18; 32] ++ map Byte.to_N digest).
  rewrite value_app by lia. rewrite length_map, Hlen.
  change (Bytes.value 256 [18; 32]) with 4640.
  assert (Bytes.value 256 (map Byte.to_N digest) < 256 ^ N.of_nat 32) as Hlt.
  { rewrite <- Hlen, <- (length_map Byte.to_N).
    apply value_lt_pow; [lia|]. clear. induction digest; simpl; constructor;
      [apply to_N_lt | assumption]. }
  change (N.of_nat 32) with 32 in *.
  remember (256 ^ 32) as B. lia.
Qed.

Lemma encode_sha2_256_length (digest : list byte) :
  length digest = 32%nat →
  String.length (Base58.encode (x12 :: x20 :: digest)) = 46%nat.
Proof.
  intros Hlen. unfold Base58.encode.
  change (Base58.leading Byte.eqb x00 (x12 :: x20 :: digest)) with 0%nat.
  cbn [drop repeat app].
  rewrite string_of_list_ascii_length, length_map.
  apply digits_58_length.
  pose proof (be_value_sha2_256_bounds digest Hlen) as [Hlo Hhi].
  assert (58 ^ 45 <= 4640 * 256 ^ 32) as Hlo'
    by (apply N.leb_le; vm_compute; reflexivity).
  assert (4641 * 256 ^ 32 <= 58 ^ 46) as Hhi'
    by (apply N.leb_le; vm_compute; reflexivity).
  remember (256 ^ 32) as B. remember (58 ^ 45) as P. remember (58 ^ 46) as Q.
  lia.
Qed.

(** X7: [create_CID] never throws.  What it returns is a version 0
    identifier with codec [dag-pb] in base [base58btc], whose multihash
    has thirty-four bytes, begins with the SHA-256 tag [0x12] and the
    length [0x20], and passes the validation of [multihashes]. *)
Theorem create_CID_well_formed (content : string) (heap : Heap) :
  ∃ cid,
    fst (create_CID content heap) = Ok cid ∧
    CID.version cid = 0 ∧
    CID.codec cid = "dag-pb" ∧
    CID.multibaseName cid = "base58btc" ∧
    length (CID.multihash cid) = 34%nat ∧
    take 2 (CID.multihash cid) = [x12; x20] ∧
    multihash.validate (CID.multihash cid) = Ok tt.
Proof.
  exists (cidv0_of content). rewrite create_CID_run.
  split; [reflexivity|]. do 3 (split; [reflexivity|]).
  split; [unfold cidv0_of; cbn [CID.multihash length];
          now rewrite sha256_length|].
  split; [reflexivity|].
  apply validate_sha2_256, sha256_length.
Qed.

(** X8: the Base58 text of an identifier built by [create_CID] has
    forty-six characters and begins with [Qm]. *)
Theorem create_CID_text_format (content : string) (heap : Heap) :
  ∃ cid rest,
    fst (create_CID content heap) = Ok cid ∧
    CID.toBaseEncodedString cid = String "Q" (String "m" rest) ∧
    String.length (CID.toBaseEncodedString cid) = 46%nat.
Proof.
  destruct (encode_sha2_256_Qm (SHA256.sha256 (list_byte_of_string content))
              (sha256_length _)) as [rest Hrest].
  exists (cidv0_of content), rest. rewrite create_CID_run.
  split; [reflexivity|]. split; [exact Hrest|].
  apply encode_sha2_256_length, sha256_length.
Qed.

(** X9: the text of an identifier built by [create_CID] names it: the
    constructor applied to [cid.toBaseEncodedString()] gives [cid] back. *)
Theorem create_CID_text_roundtrip (content : string) (heap : Heap) (cid : CID.t) :
  fst (create_CID content heap) = Ok cid →
  CID.new_ (CID.toBaseEncodedString cid) = Ok cid.
Proof.
  rewrite create_CID_run. intros [= <-].
  apply new_CID_sha2_256, sha256_length.
Qed.

Lemma create_CID_text_roundtrip_witness :
  CID.new_ (CID.toBaseEncodedString (cidv0_of "hello world!"))
  = Ok (cidv0_of "hello world!").
Proof.
  apply (create_CID_text_roundtrip "hello world!" [] (cidv0_of "hello world!")).
  vm_compute. reflexivity.
Defined.

(** X10: a call of [create_CID] leaves the hash objects already on the
    heap as they are and adds exactly one, finalized, that was fed the
    content once. *)
Theorem create_CID_heap_frame (content : string) (heap : Heap) :
  length (snd (create_CID content heap)) = S (length heap) ∧
  (∀ (i : nat) h, heap !! i = Some h → snd (create_CID content heap) !! i = Some h) ∧
  snd (create_CID content heap) !! length heap
  = Some {| Hash.algorithm := "sha256";
            Hash.data := list_byte_of_string content;
            Hash.finalized := true |}.
Proof.
  rewrite create_CID_run. simpl. split; [|split].
  - rewrite length_app. simpl. lia.
  - intros i h Hi. now apply lookup_app_l_Some.
  - now apply list_lookup_middle.
Qed.

End ContentIdentifierFormat.

(** ** The roster: failed starts, linking in general, friendly names *)

Section RosterFacts.
Import JsArray.

(** X11: a rejected [createNode()] is fatal.  When the calls before
    call [j] resolve and call [j] rejects, the run rejects with that
    error and no roster is built. *)
Theorem main_linked_roster_start_failure
    (createNode : nat → Result Libp2p.t) (n : nat → Libp2p.t)
    (j : nat) (e : JsError) :
  (j < 40)%nat →
  (∀ i, (i < j)%nat → createNode i = Ok (n i)) →
  createNode j = Throw e →
  main_linked_roster createNode = Throw e.
Proof.
  intros Hj Hbefore Hrej. unfold main_linked_roster, start_nodes.
  rewrite (start_loop_rejected createNode n 40 0 [] j e);
    [reflexivity | lia | | assumption].
  intros i Hi. apply Hbefore. lia.
Qed.

Lemma main_linked_roster_start_failure_witness :
  main_linked_roster Scenario.failing_createNode = Throw (Error "listen EADDRINUSE").
Proof.
  apply (main_linked_roster_start_failure Scenario.failing_createNode
           Fixture.started 5 (Error "listen EADDRINUSE")).
  - lia.
  - intros i Hi. unfold Scenario.failing_createNode.
    now rewrite (proj2 (Nat.eqb_neq i 5)) by lia.
  - reflexivity.
Defined.

(** Any roster is its entries read by position. *)
Lemma roster_by_position (d : Libp2p.t) (nodes : list Libp2p.t) :
  map (fun i => nth i nodes d) (seq 0 (length nodes)) = nodes.
Proof.
  apply list_eq. intros i. as_fmap. rewrite list_lookup_fmap.
  destruct (Nat.lt_ge_cases i (length nodes)) as [Hi | Hi].
  - rewrite lookup_seq_lt by assumption. simpl.
    destruct (lookup_lt_is_Some_2 nodes i Hi) as [x Hx].
    rewrite Hx. f_equal. now apply nth_lookup_Some.
  - rewrite lookup_seq_ge by assumption. simpl.
    now rewrite lookup_ge_None_2.
Qed.

(** The second loop on any roster. *)
Lemma link_nodes_any (d : Libp2p.t) (nodes : list Libp2p.t) :
  link_nodes nodes
  = Ok (linked_upto (fun i => nth i nodes d) (length nodes) (length nodes - 1)).
Proof.
  rewrite <- (roster_by_position d nodes) at 1.
  rewrite link_nodes_started. reflexivity.
Qed.

(** X12: the second loop never throws, whatever the roster; it keeps
    the length of the roster and, of every node, the identifier, the
    addresses and the routing capability. *)
Theorem link_nodes_preserves (nodes : list Libp2p.t) :
  ∃ linked,
    link_nodes nodes = Ok linked ∧
    length linked = length nodes ∧
    ∀ (i : nat) node, nodes !! i = Some node →
      ∃ node',
        linked !! i = Some node' ∧
        Libp2p.peerId node' = Libp2p.peerId node ∧
        Libp2p.multiaddrs node' = Libp2p.multiaddrs node ∧
        Libp2p._dht node' = Libp2p._dht node.
Proof.
  destruct nodes as [|d rest].
  - exists []. repeat split. intros i node Hi. discriminate Hi.
  - set (nodes := d :: rest).
    eexists. split; [apply (link_nodes_any d)|]. split.
    + apply linked_upto_length.
    + intros i node Hi.
      pose proof (lookup_lt_Some _ _ _ Hi) as Hlt.
      rewrite linked_upto_lookup by assumption.
      rewrite (nth_lookup_Some nodes i d node Hi).
      destruct (i <? length nodes - 1)%nat; eexists; (split; [reflexivity|]);
        repeat split.
Qed.

(** Rosters without a successor to link, the empty one and the one of a
    single node, come out of the second loop unchanged. *)
Lemma link_nodes_short (nodes : list Libp2p.t) :
  (length nodes ≤ 1)%nat → link_nodes nodes = Ok nodes.
Proof.
  destruct nodes as [|d [|d' rest]]; simpl; intros Hlen; try reflexivity. lia.
Qed.

Lemma map_nodes_fold nodes (names : list string) (ids : list PeerId.t) :
  fold_left
    (fun (arrays : list string * list PeerId.t) node =>
       (push (fst arrays) (PeerId.toB58String (Libp2p.peerId node)),
        push (snd arrays) (Libp2p.peerId node)))
    nodes (names, ids)
  = (names ++ roster_texts nodes, ids ++ map Libp2p.peerId nodes).
Proof.
  revert names ids. induction nodes as [|node nodes IH]; intros names ids; simpl.
  - now rewrite !app_nil_r.
  - rewrite IH. unfold push. now rewrite <- !app_assoc.
Qed.

Lemma map_nodes_to_peerids_lists nodes :
  node_mappings (map_nodes_to_peerids nodes) = roster_texts nodes ∧
  node_peerIds (map_nodes_to_peerids nodes) = map Libp2p.peerId nodes.
Proof. unfold map_nodes_to_peerids. now rewrite map_nodes_fold. Qed.

(** X13: the two arrays of [map_nodes_to_peerids] are aligned with the
    roster: position [i] of the first holds the Base58 text of the
    identifier of node [i], position [i] of the second that identifier,
    and neither has a position the roster has not. *)
Theorem map_nodes_to_peerids_aligned (nodes : list Libp2p.t) (i : nat) :
  node_mappings (map_nodes_to_peerids nodes) !! i
  = (fun node => PeerId.toB58String (Libp2p.peerId node)) <$> nodes !! i ∧
  node_peerIds (map_nodes_to_peerids nodes) !! i
  = Libp2p.peerId <$> nodes !! i ∧
  length (node_mappings (map_nodes_to_peerids nodes)) = length nodes ∧
  length (node_peerIds (map_nodes_to_peerids nodes)) = length nodes.
Proof.
  destruct (map_nodes_to_peerids_lists nodes) as [-> ->].
  unfold roster_texts. rewrite !length_map. as_fmap.
  now rewrite !list_lookup_fmap.
Qed.

(** X14: when the forty nodes start with empty address books, the
    linked roster is a chain and nothing more: the address book of node
    [i], for [i] from 0 to 38, holds the one entry of node [i + 1], and
    the address book of the last node is empty. *)
Theorem main_linked_roster_books
    (createNode : nat → Result Libp2p.t) (n : nat → Libp2p.t) :
  (∀ k, (k < 40)%nat → createNode k = Ok (n k)) →
  (∀ k, (k < 40)%nat →
     PeerStore.addressBook (Libp2p.peerStore (n k)) = ∅) →
  ∃ nodes,
    main_linked_roster createNode = Ok nodes ∧
    ∀ (i : nat) node, nodes !! i = Some node →
      PeerStore.addressBook (Libp2p.peerStore node)
      = if (i <? 39)%nat then
          {[ PeerId.toB58String (Libp2p.peerId (n (i + 1)))
             := Libp2p.multiaddrs (n (i + 1)) ]}
        else ∅.
Proof.
  intros Hres Hempty. exists (linked_upto n 40 39). split.
  - unfold main_linked_roster. rewrite (start_nodes_resolved createNode n Hres).
    exact (link_nodes_started n 40).
  - intros i node Hi.
    assert (i < 40)%nat as Hlt.
    { apply lookup_lt_Some in Hi. now rewrite linked_upto_length in Hi. }
    rewrite linked_upto_lookup in Hi by assumption. injection Hi as <-.
    destruct (i <? 39)%nat.
    + simpl. unfold AddressBook.set. rewrite Hempty by assumption.
      apply insert_empty.
    + now apply Hempty.
Qed.

Lemma main_linked_roster_books_witness :
  ∃ nodes,
    main_linked_roster (fun k => Ok (Fixture.started k)) = Ok nodes ∧
    ∀ (i : nat) node, nodes !! i = Some node →
      PeerStore.addressBook (Libp2p.peerStore node)
      = if (i <? 39)%nat then
          {[ PeerId.toB58String (Libp2p.peerId (Fixture.started (i + 1)))
             := Libp2p.multiaddrs (Fixture.started (i + 1)) ]}
        else ∅.
Proof.
  apply (main_linked_roster_books (fun k => Ok (Fixture.started k)) Fixture.started).
  - intros k Hk. reflexivity.
  - intros k Hk. reflexivity.
Defined.

(** X15: the friendly name the run prints beside a returned position.
    For an identifier that matches a roster entry, [node_mappings] at
    the position holds the Base58 text of that identifier; at the
    sentinel of an unmatched identifier it holds nothing. *)
Theorem node_mappings_at_position
    (peers : list Libp2p.t) (first : Libp2p.t) (query : string)
    (sorted_ids : list PeerId.t) (i : nat) (sorted : PeerId.t) :
  peers !! 0 = Some first →
  KadDHT.getClosestPeers (Libp2p._dht first) (uint8ArrayFromString query)
    = yields sorted_ids →
  sorted_ids !! i = Some sorted →
  ∃ closest_peers position,
    sort_closest_nodes_dht peers query = Ok closest_peers ∧
    closest_peers !! i = Some position ∧
    (unmatched peers sorted →
       array_get (node_mappings (map_nodes_to_peerids peers)) position = None) ∧
    (¬ unmatched peers sorted →
       array_get (node_mappings (map_nodes_to_peerids peers)) position
       = Some (PeerId._idB58String sorted)).
Proof.
  intros Hfirst Hcap Hi.
  rewrite (sort_closest_nodes_dht_yields peers first query sorted_ids Hfirst Hcap).
  exists (map (roster_position peers) sorted_ids), (roster_position peers sorted).
  split; [reflexivity|]. split.
  { as_fmap. now rewrite list_lookup_fmap, Hi. }
  destruct (map_nodes_to_peerids_lists peers) as [-> _]. split.
  - intros Hun. apply roster_position_unmatched in Hun. now rewrite Hun.
  - intros Hmatched.
    assert (roster_position peers sorted ≠ (-1)%Z) as Hne
      by (intros Heq; now apply Hmatched, roster_position_unmatched).
    destruct (roster_position_matched peers sorted Hne)
      as (j & element & -> & Hj & Htext & _).
    unfold array_get.
    rewrite (proj2 (Z.ltb_ge (Z.of_nat j) 0)) by lia. rewrite Nat2Z.id.
    unfold roster_texts. as_fmap. rewrite list_lookup_fmap, Hj. simpl.
    now rewrite Htext.
Qed.

Lemma node_mappings_at_position_witness :
  ∃ closest_peers position,
    sort_closest_nodes_dht Fixture.roster "hello world!" = Ok closest_peers ∧
    closest_peers !! 1 = Some position ∧
    (unmatched Fixture.roster (Fixture.peer "QmStranger") →
       array_get (node_mappings (map_nodes_to_peerids Fixture.roster)) position
       = None) ∧
    (¬ unmatched Fixture.roster (Fixture.peer "QmStranger") →
       array_get (node_mappings (map_nodes_to_peerids Fixture.roster)) position
       = Some (PeerId._idB58String (Fixture.peer "QmStranger"))).
Proof.
  apply (node_mappings_at_position Fixture.roster
           (Fixture.node "QmFirst"
              [Fixture.peer "QmThird"; Fixture.peer "QmStranger"; Fixture.peer "QmFirst"])
           "hello world!"
           [Fixture.peer "QmThird"; Fixture.peer "QmStranger"; Fixture.peer "QmFirst"]
           1 (Fixture.peer "QmStranger"));
    reflexivity.
Defined.

End RosterFacts.

(** ** The run: reporting, failures, and when nodes are stopped *)

Section RunFacts.

Lemma Run_bind_Ok {A B} (m : Run A) (k : A → Run B) w a w' :
  m w = (Ok a, w') → Run_bind m k w = k a w'.
Proof. intros H. unfold Run_bind. now rewrite H. Qed.

Lemma Run_bind_Throw {A B} (m : Run A) (k : A → Run B) w e w' :
  m w = (Throw e, w') → Run_bind m k w = (Throw e, w').
Proof. intros H. unfold Run_bind. now rewrite H. Qed.




Lemma report_entry_Ok_iff c item w :
  fst (report_entry c item w) = Ok tt ↔ reportable c item.
Proof.
  unfold report_entry, reportable, Run_bind, await, emit.
  destruct (parseProviderKey item) as [entry | e] eqn:Hparse; simpl.
  - destruct (decodeBase32 c (peerId entry)) as [raw | e] eqn:Hraw; simpl.
    + destruct (createFromBytes c raw) as [pid | e] eqn:Hpid; simpl.
      * split; [intros _; now exists entry, raw, pid | reflexivity].
      * split; [discriminate|].
        intros (entry' & raw' & pid' & [= <-] & Hraw' & Hpid').
        rewrite Hraw in Hraw'. injection Hraw' as <-.
        rewrite Hpid in Hpid'. discriminate Hpid'.
    + split; [discriminate|].
      intros (entry' & raw' & pid' & [= <-] & Hraw' & _).
      rewrite Hraw in Hraw'. discriminate Hraw'.
  - split; [discriminate|]. intros (entry' & raw' & pid' & H & _). discriminate H.
Qed.

Lemma report_entry_trace c item w :
  fst (report_entry c item w) = Ok tt →
  ∃ line, snd (report_entry c item w)
          = {| heap := heap w; trace := trace w ++ [Log line] |}.
Proof.
  unfold report_entry, Run_bind, await, emit.
  destruct (parseProviderKey item) as [entry | e]; simpl; [|discriminate].
  destruct (decodeBase32 c (peerId entry)) as [raw | e]; simpl; [|discriminate].
  destruct (createFromBytes c raw) as [pid | e]; simpl; [|discriminate].
  intros _. eexists. reflexivity.
Qed.

Lemma report_datastore_Ok_iff c data w :
  fst (report_datastore c data w) = Ok tt ↔ Forall (reportable c) data.
Proof.
  revert w. induction data as [|item data IH]; intros w.
  - simpl. split; [constructor | reflexivity].
  - cbn [report_datastore].
    pose proof (report_entry_Ok_iff c item w) as Hentry.
    destruct (report_entry c item w) as [[[] | e] w1] eqn:E; simpl in Hentry.
    + rewrite (Run_bind_Ok _ _ _ _ _ E), IH. split.
      * intros Hall. constructor; [now apply Hentry | exact Hall].
      * intros Hall. exact (Forall_inv_tail Hall).
    + rewrite (Run_bind_Throw _ _ _ _ _ E). simpl. split; [discriminate|].
      intros Hall. apply Forall_inv in Hall. apply Hentry in Hall. discriminate Hall.
Qed.

(** X16: the listing of a datastore succeeds exactly when every key is
    reportable -- a key with other than four segments, or with a fourth
    segment that does not decode to an identifier, makes it throw -- and
    a successful listing logs one line per key and nothing else. *)
Theorem report_datastore_succeeds_iff
    (c : Collaborators) (data : list string) (w : World) :
  (fst (report_datastore c data w) = Ok tt ↔ Forall (reportable c) data) ∧
  (fst (report_datastore c data w) = Ok tt →
   heap (snd (report_datastore c data w)) = heap w ∧
   ∃ lines,
     trace (snd (report_datastore c data w)) = trace w ++ map Log lines ∧
     length lines = length data).
Proof.
  split; [apply report_datastore_Ok_iff|].
  revert w. induction data as [|item data IH]; intros w.
  - intros _. split; [reflexivity|]. exists []. simpl. now rewrite app_nil_r.
  - cbn [report_datastore].
    pose proof (report_entry_trace c item w) as Htrace.
    destruct (report_entry c item w) as [[[] | e] w1] eqn:E; simpl in Htrace.
    + rewrite (Run_bind_Ok _ _ _ _ _ E).
      destruct (Htrace eq_refl) as [line ->].
      intros Hok.
      destruct (IH {| heap := heap w; trace := trace w ++ [Log line] |} Hok)
        as (Hheap & lines & Hlines & Hlen).
      split; [exact Hheap|]. exists (line :: lines). simpl.
      rewrite Hlines. simpl. rewrite <- app_assoc. simpl.
      split; [reflexivity | now rewrite Hlen].
    + rewrite (Run_bind_Throw _ _ _ _ _ E). discriminate.
Qed.


Lemma all_any {A} (iterable : AsyncIterable A) (items : list A) :
  all iterable items
  = match rejection iterable with
    | Some e => Throw e
    | None => Ok (items ++ yielded iterable)
    end.
Proof.
  revert items. induction iterable as [|item rest IH|e]; intros items; simpl.
  - now rewrite app_nil_r.
  - rewrite IH. destruct (rejection rest); [reflexivity|].
    unfold JsArray.push. now rewrite <- app_assoc.
  - reflexivity.
Qed.

Lemma for_loop_start_length createNode k index (nodes l : list Libp2p.t) :
  for_loop k index
    (fun index nodes => node ← createNode index; Ok (JsArray.push nodes node)) nodes
  = Ok l →
  length l = (length nodes + k)%nat.
Proof.
  revert index nodes. induction k as [|k IH]; intros index nodes; simpl.
  - intros [= <-]. lia.
  - destruct (createNode index) as [node | e]; simpl; [|discriminate].
    intros Hl. rewrite (IH _ _ Hl). unfold JsArray.push.
    rewrite length_app. simpl. lia.
Qed.

(** A roster that was built has forty nodes. *)
Lemma main_linked_roster_length createNode nodes :
  main_linked_roster createNode = Ok nodes → length nodes = 40%nat.
Proof.
  unfold main_linked_roster.
  destruct (start_nodes createNode) as [started | e] eqn:Hstart; simpl;
    [|discriminate].
  apply for_loop_start_length in Hstart. simpl in Hstart.
  destruct started as [|d rest]; [discriminate Hstart|].
  rewrite (link_nodes_any d). intros [= <-].
  now rewrite linked_upto_length.
Qed.



Lemma main_linked_roster_resolved (start : nat → Libp2p.t) :
  main_linked_roster (fun k => Ok (start k)) = Ok (linked_upto start 40 39).
Proof.
  unfold main_linked_roster.
  rewrite (start_nodes_resolved (fun k => Ok (start k)) start) by reflexivity.
  exact (link_nodes_started start 40).
Qed.



Lemma quiet_await {A} (r : Result A) : quiet (await r).
Proof. intros w. exists []. simpl. split; [now rewrite app_nil_r | constructor]. Qed.

Lemma quiet_emit ev : is_Stop ev = false → quiet (emit ev).
Proof.
  intros Hev w. exists [ev]. simpl. split; [reflexivity|].
  constructor; [exact Hev | constructor].
Qed.

Lemma quiet_on_heap {A} (m : Js A) : quiet (on_heap m).
Proof.
  intros w. exists []. unfold on_heap. destruct (m (heap w)) as [r heap'].
  simpl. split; [now rewrite app_nil_r | constructor].
Qed.

Lemma quiet_ret {A} (a : A) : quiet (Run_ret a).
Proof. intros w. exists []. simpl. split; [now rewrite app_nil_r | constructor]. Qed.

Lemma quiet_bind {A B} (m : Run A) (k : A → Run B) :
  quiet m → (∀ a, quiet (k a)) → quiet (Run_bind m k).
Proof.
  intros Hm Hk w. destruct (Hm w) as (evs1 & Htrace1 & Hquiet1).
  unfold Run_bind. destruct (m w) as [[a | e] w1]; simpl in *.
  - destruct (Hk a w1) as (evs2 & Htrace2 & Hquiet2).
    exists (evs1 ++ evs2). rewrite Htrace2, Htrace1, <- app_assoc.
    split; [reflexivity | now apply Forall_app].
  - now exists evs1.
Qed.

Lemma quiet_report_datastore c data : quiet (report_datastore c data).
Proof.
  induction data as [|item data IH]; simpl; [apply quiet_ret|].
  apply quiet_bind; [|intros _; exact IH].
  unfold report_entry.
  repeat (apply quiet_bind; [apply quiet_await | intros ?]).
  now apply quiet_emit.
Qed.

Lemma quiet_report_closest c nodes names positions :
  quiet (report_closest c nodes names positions).
Proof.
  induction positions as [|p positions IH]; simpl; [apply quiet_ret|].
  apply quiet_bind; [now apply quiet_emit | intros _].
  apply quiet_bind; [apply quiet_await | intros node].
  apply quiet_bind; [apply quiet_report_datastore | intros _; exact IH].
Qed.

Lemma stops_last_bind {A} nodes (m : Run A) (k : A → Run unit) :
  quiet m → (∀ a, stops_last nodes (k a)) → stops_last nodes (Run_bind m k).
Proof.
  intros Hm Hk w. destruct (Hm w) as (evs1 & Htrace1 & Hquiet1).
  unfold Run_bind. destruct (m w) as [[a | e] w1]; simpl in *.
  - destruct (Hk a w1) as (evs2 & Hquiet2 & [[Hthrow Htrace2] | [Hok Htrace2]]).
    + exists (evs1 ++ evs2). split; [now apply Forall_app|]. left.
      split; [exact Hthrow|]. now rewrite Htrace2, Htrace1, <- app_assoc.
    + exists (evs1 ++ evs2). split; [now apply Forall_app|]. right.
      split; [exact Hok|]. now rewrite Htrace2, Htrace1, <- !app_assoc.
  - exists evs1. split; [exact Hquiet1|]. left. split; [now exists e | exact Htrace1].
Qed.

Lemma stops_last_stop_all nodes : stops_last nodes (stop_all nodes).
Proof. intros w. exists []. split; [constructor|]. right. now split. Qed.

(** What follows the roster in [main], for the roster [nodes]. *)
Lemma stops_last_main c :
  ∀ w, ∃ evs,
    Forall (fun ev => is_Stop ev = false) evs ∧
    ((is_Throw (fst (main c w)) ∧ trace (snd (main c w)) = trace w ++ evs) ∨
     (∃ nodes,
        main_linked_roster (createNode c) = Ok nodes ∧
        fst (main c w) = Ok tt ∧
        trace (snd (main c w)) = trace w ++ evs ++ map Stop nodes)).
Proof.
  intros w. unfold main.
  destruct (main_linked_roster (createNode c)) as [nodes | e] eqn:Hroster.
  - rewrite (Run_bind_Ok _ _ w nodes w) by reflexivity.
    match goal with |- context [fst (?m w)] =>
      assert (stops_last nodes m) as Hlast end.
    { repeat (apply stops_last_bind;
              [first [apply quiet_await | apply quiet_on_heap
                     | apply quiet_report_closest | now apply quiet_emit]
              | intros ?]).
      apply stops_last_stop_all. }
    destruct (Hlast w) as (evs & Hquiet & [[Hthrow Htrace] | [Hok Htrace]]).
    + exists evs. split; [exact Hquiet|]. left. now split.
    + exists evs. split; [exact Hquiet|]. right. exists nodes. now repeat split.
  - rewrite (Run_bind_Throw _ _ w e w) by reflexivity.
    exists []. split; [constructor|]. left. simpl.
    split; [now exists e | now rewrite app_nil_r].
Qed.

(** X19: nodes are stopped only at the end of a run.  A run that
    throws stops no node; a run that completes stops every node of the
    roster once, in roster order, and these are its last events. *)
Theorem main_stops_only_at_end (c : Collaborators) (w : World) :
  ∃ evs,
    Forall (fun ev => is_Stop ev = false) evs ∧
    ((is_Throw (fst (main c w)) ∧ trace (snd (main c w)) = trace w ++ evs) ∨
     (∃ nodes,
        main_linked_roster (createNode c) = Ok nodes ∧
        length nodes = 40%nat ∧
        fst (main c w) = Ok tt ∧
        trace (snd (main c w)) = trace w ++ evs ++ map Stop nodes)).
Proof.
  destruct (stops_last_main c w)
    as (evs & Hquiet & [Hthrow | (nodes & Hroster & Hok & Htrace)]).
  - exists evs. split; [exact Hquiet | now left].
  - exists evs. split; [exact Hquiet|]. right. exists nodes.
    split; [exact Hroster|]. split; [|now split].
    exact (main_linked_roster_length _ _ Hroster).
Qed.

Lemma report_closest_Ok c nodes names positions w :
  (∀ p, p ∈ positions → ∃ node, array_get nodes p = Some node) →
  (∀ node, Forall (reportable c) (datastore_keys c node)) →
  fst (report_closest c nodes names positions w) = Ok tt.
Proof.
  intros Hvalid Hkeys. revert w.
  induction positions as [|p positions IH]; intros w; [reflexivity|].
  cbn [report_closest].
  rewrite (Run_bind_Ok (emit _) _ w tt _) by reflexivity. cbv beta.
  destruct (Hvalid p) as [node Hnode]; [apply list_elem_of_here|].
  rewrite (Run_bind_Ok (await _) _ _ node _)
    by (unfold await, array_at; now rewrite Hnode).
  cbv beta zeta.
  pose proof (proj2 (report_datastore_Ok_iff c (datastore_keys c node)
                       {| heap := heap w;
                          trace := trace w ++
                            [Log [Text "Node ";
                                  Text (pretty p +:+ " : "
                                        +:+ string_operand (array_get names p))]] |})
                (Hkeys node)) as Hdata.
  destruct (report_datastore c (datastore_keys c node) _) as [[[] | e] w3] eqn:E;
    [|discriminate Hdata].
  rewrite (Run_bind_Ok _ _ _ _ _ E).
  apply IH. intros q Hq. apply Hvalid. now apply list_elem_of_further.
Qed.

(** X20: the run completes when its collaborators do their part: the
    forty nodes start, the advertisement is accepted, the capability of
    the first node returns identifiers of roster members only, every
    datastore key is reportable, and the lookup finds a provider. *)
Theorem main_completes
    (c : Collaborators) (w : World) (n : nat → Libp2p.t)
    (sorted_ids : list PeerId.t) :
  (∀ k, (k < 40)%nat → createNode c k = Ok (n k)) →
  (∀ node content, provide c node content = Ok tt) →
  KadDHT.getClosestPeers (Libp2p._dht (n 0)) (uint8ArrayFromString "hello world!")
    = yields sorted_ids →
  (∀ sorted, sorted ∈ sorted_ids →
     ∃ k, (k < 40)%nat ∧
       PeerId.toB58String (Libp2p.peerId (n k)) = PeerId._idB58String sorted) →
  (∀ node, Forall (reportable c) (datastore_keys c node)) →
  (∀ node content,
     rejection (findProviders c node content) = None ∧
     yielded (findProviders c node content) ≠ []) →
  fst (main c w) = Ok tt.
Proof.
  intros Hstart Hprovide Hcap Hmembers Hkeys Hfound.
  set (nodes := linked_upto n 40 39).
  assert (main_linked_roster (createNode c) = Ok nodes) as Hroster.
  { unfold main_linked_roster. rewrite (start_nodes_resolved (createNode c) n Hstart).
    exact (link_nodes_started n 40). }
  assert (∀ k, (k < 40)%nat → ∃ node,
            nodes !! k = Some node ∧ Libp2p.peerId node = Libp2p.peerId (n k) ∧
            Libp2p._dht node = Libp2p._dht (n k)) as Hnodes.
  { intros k Hk. unfold nodes. rewrite linked_upto_lookup by assumption.
    destruct (k <? 39)%nat; eexists; repeat split. }
  destruct (Hnodes 0%nat ltac:(lia)) as (first & Hfirst & _ & Hdht).
  destruct (Hnodes 39%nat ltac:(lia)) as (last & Hlast & _ & _).
  assert (array_at nodes (Z.of_nat (length nodes) - 1) = Ok last) as Hat.
  { assert (length nodes = 40%nat) as -> by apply linked_upto_length.
    unfold array_at, array_get.
    change (Z.of_nat 40 - 1)%Z with 39%Z. change (39 <? 0)%Z with false.
    change (Z.to_nat 39) with 39%nat. cbv iota. now rewrite Hlast. }
  unfold main.
  rewrite (Run_bind_Ok (await _) _ w nodes w) by (now rewrite Hroster).
  cbv beta zeta.
  rewrite (Run_bind_Ok (emit _) _ _ tt _) by reflexivity. cbv beta.
  rewrite (Run_bind_Ok (emit _) _ _ tt _) by reflexivity. cbv beta.
  rewrite (Run_bind_Ok (on_heap _) _ _ (cidv0_of "hello world!") _)
    by (unfold on_heap; now rewrite create_CID_run).
  cbv beta.
  rewrite (Run_bind_Ok (await _) _ _ last _) by (unfold await; now rewrite Hat).
  cbv beta.
  rewrite (Run_bind_Ok (emit _) _ _ tt _) by reflexivity. cbv beta.
  rewrite (Run_bind_Ok (await _) _ _ tt _)
    by (unfold await; now rewrite Hprovide).
  cbv beta.
  rewrite (Run_bind_Ok (await _) _ _ last _) by (unfold await; now rewrite Hat).
  cbv beta.
  rewrite (Run_bind_Ok (emit _) _ _ tt _) by reflexivity. cbv beta.
  rewrite (Run_bind_Ok (await _) _ _ (map (roster_position nodes) sorted_ids) _)
    by (unfold await;
        now rewrite (sort_closest_nodes_dht_yields nodes first _ sorted_ids Hfirst)
          by (now rewrite Hdht)).
  cbv beta.
  rewrite (Run_bind_Ok (emit _) _ _ tt _) by reflexivity. cbv beta.
  match goal with |- context [Run_bind (report_closest ?c ?ns ?names ?ps) _ ?w'] =>
    pose proof (report_closest_Ok c ns names ps w') as Hreport;
    destruct (report_closest c ns names ps w') as [[[] | e] w12] eqn:E
  end.
  2:{ exfalso. simpl in Hreport. discriminate Hreport; [|exact Hkeys].
      intros p Hp. change (map ?f ?l) with (f <$> l) in Hp.
      apply list_elem_of_fmap in Hp as (sorted & -> & Hin).
      destruct (Hmembers sorted Hin) as (k & Hk & Htext).
      destruct (Hnodes k Hk) as (node & Hnode & Hid & _).
      destruct (roster_position_range nodes sorted) as [Hun | Hrange].
      - exfalso. apply roster_position_unmatched in Hun.
        apply (Hun node); [eapply list_elem_of_lookup_2, Hnode|].
        now rewrite Hid.
      - unfold array_get.
        rewrite (proj2 (Z.ltb_ge _ 0)) by lia.
        apply lookup_lt_is_Some_2. lia. }
  rewrite (Run_bind_Ok _ _ _ _ _ E). cbv beta.
  rewrite (Run_bind_Ok (await _) _ _ first _)
    by (unfold await; now rewrite (at_lookup nodes 0 first Hfirst)).
  cbv beta.
  destruct (Hfound first (cidv0_of "hello world!")) as [Hrej Hsome].
  destruct (yielded (findProviders c first (cidv0_of "hello world!")))
    as [|found providers] eqn:Hyielded; [contradiction|].
  rewrite (Run_bind_Ok (await _) _ _ (found :: providers) _)
    by (unfold await; now rewrite all_any, Hrej, Hyielded).
  cbv beta.
  rewrite (Run_bind_Ok (await _) _ _ found _) by reflexivity.
  cbv beta.
  rewrite (Run_bind_Ok (emit _) _ _ tt _) by reflexivity.
  reflexivity.
Qed.

Lemma main_completes_witness :
  fst (main (Scenario.collaborators Scenario.members [Scenario.provider_key]
               Scenario.found) Scenario.world) = Ok tt.
Proof.
  apply (main_completes
           (Scenario.collaborators Scenario.members [Scenario.provider_key]
              Scenario.found)
           Scenario.world Scenario.members
           [Fixture.peer (Scenario.name 39); Fixture.peer (Scenario.name 0)]).
  - intros k Hk. reflexivity.
  - intros node content. reflexivity.
  - reflexivity.
  - intros sorted Hin.
    apply elem_of_cons in Hin as [-> | Hin];
      [exists 39%nat; split; [lia | reflexivity]|].
    apply elem_of_cons in Hin as [-> | Hin];
      [exists 0%nat; split; [lia | reflexivity]|].
    inversion Hin.
  - intros node. constructor; [|constructor].
    exists {| cid := "QmWDXASJ7wW316RRQi57fSXTscfnZ7vN2mJXVkXE8t5m5a";
              peerId := "CIQPEER" |}, [], (Fixture.peer "QmDecoded").
    repeat split.
  - intros node content. split; [reflexivity | discriminate].
Defined.

Lemma calm_await {A} allowed (r : Result A) : calm allowed (await r).
Proof. intros w. exists []. simpl. split; [now rewrite app_nil_r | constructor]. Qed.

Lemma calm_emit allowed ev : allowed ev = true → calm allowed (emit ev).
Proof.
  intros Hev w. exists [ev]. simpl. split; [reflexivity|].
  constructor; [exact Hev | constructor].
Qed.

Lemma calm_ret {A} allowed (a : A) : calm allowed (Run_ret a).
Proof. intros w. exists []. simpl. split; [now rewrite app_nil_r | constructor]. Qed.

Lemma calm_bind {A B} allowed (m : Run A) (k : A → Run B) :
  calm allowed m → (∀ a, calm allowed (k a)) → calm allowed (Run_bind m k).
Proof.
  intros Hm Hk w. destruct (Hm w) as (evs1 & Htrace1 & Hall1).
  unfold Run_bind. destruct (m w) as [[a | e] w1]; simpl in *.
  - destruct (Hk a w1) as (evs2 & Htrace2 & Hall2).
    exists (evs1 ++ evs2). rewrite Htrace2, Htrace1, <- app_assoc.
    split; [reflexivity | now apply Forall_app].
  - now exists evs1.
Qed.

Lemma calm_report_datastore c data : calm is_Log_or_Stop (report_datastore c data).
Proof.
  induction data as [|item data IH]; simpl; [apply calm_ret|].
  apply calm_bind; [|intros _; exact IH].
  unfold report_entry.
  repeat (apply calm_bind; [apply calm_await | intros ?]).
  now apply calm_emit.
Qed.

Lemma calm_report_closest c nodes names positions :
  calm is_Log_or_Stop (report_closest c nodes names positions).
Proof.
  induction positions as [|p positions IH]; simpl; [apply calm_ret|].
  apply calm_bind; [now apply calm_emit | intros _].
  apply calm_bind; [apply calm_await | intros node].
  apply calm_bind; [apply calm_report_datastore | intros _; exact IH].
Qed.

Lemma calm_stop_all nodes : calm is_Log_or_Stop (stop_all nodes).
Proof.
  intros w. exists (map Stop nodes). split; [reflexivity|].
  induction nodes; simpl; constructor; [reflexivity | assumption].
Qed.

(** X21: once the roster is built, the run waits the settling delay of
    10000 ms and then advertises the identifier of [hello world!] from
    the last node, once: whatever happens afterwards, the events that
    follow are only log lines and stops. *)
Theorem main_advertises_from_last
    (c : Collaborators) (w : World) (nodes : list Libp2p.t) :
  main_linked_roster (createNode c) = Ok nodes →
  ∃ last evs,
    nodes !! 39 = Some last ∧
    trace (snd (main c w))
    = trace w
      ++ [Log [Text "Current node addresses: ";
               Names (node_mappings (map_nodes_to_peerids nodes))];
          Delay 10000;
          Provide last (cidv0_of "hello world!")]
      ++ evs ∧
    Forall (fun ev => is_Log_or_Stop ev = true) evs.
Proof.
  intros Hroster.
  pose proof (main_linked_roster_length _ _ Hroster) as Hlen.
  destruct (lookup_lt_is_Some_2 nodes 39) as [last Hlast]; [lia|].
  assert (array_at nodes (Z.of_nat (length nodes) - 1) = Ok last) as Hat.
  { rewrite Hlen. unfold array_at, array_get.
    change (Z.of_nat 40 - 1)%Z with 39%Z. change (39 <? 0)%Z with false.
    change (Z.to_nat 39) with 39%nat. cbv iota. now rewrite Hlast. }
  unfold main.
  rewrite (Run_bind_Ok (await _) _ w nodes w) by (now rewrite Hroster).
  cbv beta zeta.
  rewrite (Run_bind_Ok (emit _) _ _ tt _) by reflexivity. cbv beta.
  rewrite (Run_bind_Ok (emit _) _ _ tt _) by reflexivity. cbv beta.
  rewrite (Run_bind_Ok (on_heap _) _ _ (cidv0_of "hello world!") _)
    by (unfold on_heap; now rewrite create_CID_run).
  cbv beta.
  rewrite (Run_bind_Ok (await _) _ _ last _) by (unfold await; now rewrite Hat).
  cbv beta.
  rewrite (Run_bind_Ok (emit _) _ _ tt _) by reflexivity. cbv beta.
  match goal with |- context [snd (?m ?w6)] =>
    assert (calm is_Log_or_Stop m) as Hcalm;
    [| destruct (Hcalm w6) as (evs & Htrace & Hall) ]
  end.
  { repeat (apply calm_bind;
            [first [apply calm_await | apply calm_report_closest
                   | now apply calm_emit]
            | intros ?]).
    apply calm_stop_all. }
  exists last, evs. split; [exact Hlast|]. split; [|exact Hall].
  rewrite Htrace. simpl. now rewrite <- !app_assoc.
Qed.

Lemma main_advertises_from_last_witness :
  ∃ last evs,
    linked_upto Fixture.started 40 39 !! 39 = Some last ∧
    trace (snd (main (Scenario.collaborators Fixture.started [] [])
                  Scenario.world))
    = trace Scenario.world
      ++ [Log [Text "Current node addresses: ";
               Names (node_mappings
                        (map_nodes_to_peerids (linked_upto Fixture.started 40 39)))];
          Delay 10000;
          Provide last (cidv0_of "hello world!")]
      ++ evs ∧
    Forall (fun ev => is_Log_or_Stop ev = true) evs.
Proof.
  apply (main_advertises_from_last
           (Scenario.collaborators Fixture.started [] []) Scenario.world
           (linked_upto Fixture.started 40 39)).
  exact (main_linked_roster_resolved Fixture.started).
Defined.

End RunFacts.
